(** * VideoRAG cloud pipeline: segmentation, ingestion and retrieval

    A shallow embedding of the [videorag] package
    ([_videoutil/split.py], [_videoutil/asr.py], [_utils.py],
    [_storage/__init__.py], [_op.py]) together with the properties the
    specification states about it.

    Conventions of the embedding:
    - A Python [float] (durations, offsets, similarities) is its exact
      value, a rational [Q].  Sums, differences, quotients and comparisons
      of floats are taken exactly.  The product [end * 1000] of the segment
      id is the product of IEEE 754 binary64 arithmetic ([Py.float_mul]),
      because truncating it and truncating the exact product differ.
    - Python [int] is [Z]; [str] is [string]; [dict] with string keys is
      [gmap string _]; [Optional[T]] is [option T].
    - Functions that touch the file system, the remote services or the
      remote table are written in a state-and-exception monad over [World]. *)

From Stdlib Require Import ZArith QArith Qround Qabs Qpower Qminmax Lqa String Ascii List Lia.
From stdpp Require Import base option list gmap strings pretty sorting.

#[local] Set Warnings "-register-all".

Local Open Scope string_scope.
Local Open Scope list_scope.
Local Open Scope Z_scope.

(** ** Python values and builtins *)

Module Py.

(** JSON-like runtime values ([json.loads], rows returned by the store). *)
Inductive PyVal : Type :=
| PyNone
| PyBool (b : bool)
| PyInt (z : Z)
| PyFloat (q : Q)
| PyStr (s : string)
| PyList (l : list PyVal)
| PyDict (d : gmap string PyVal).

(** Exceptions are identified by the name of their class. *)
Record PyExc : Type := mkExc { exc_class : string; exc_msg : string }.

Inductive Result (A : Type) : Type :=
| Ok (a : A)
| Raise (e : PyExc).
Arguments Ok {A} a.
Arguments Raise {A} e.

(** [bool(v)]: truth value testing, as [or] applies it. *)
Definition truthy (v : PyVal) : bool :=
  match v with
  | PyNone => false
  | PyBool b => b
  | PyInt z => negb (z =? 0)
  | PyFloat q => negb (Qeq_bool q 0)
  | PyStr s => negb (String.eqb s "")
  | PyList l => match l with [] => false | _ => true end
  | PyDict d => negb (bool_decide (d = ∅))
  end.

(** [int(x)] for a float [x]: truncation toward zero. *)
Definition py_int (x : Q) : Z := Z.quot (Qnum x) (Z.pos (Qden x)).

(** *** Binary floating point

    The nearest integer, ties to the even one. *)
Definition rint (x : Q) : Z :=
  let f := Qfloor x in
  match Qcompare (x - inject_Z f) (1 # 2) with
  | Lt => f
  | Gt => f + 1
  | Eq => if Z.even f then f else f + 1
  end.

(** The binary exponent of a positive [x]: [2 ^ ilog2 x <= x < 2 * 2 ^ ilog2 x]. *)
Definition ilog2 (x : Q) : Z :=
  let l := Z.log2 (Qnum x) - Z.log2 (Z.pos (Qden x)) in
  if Qle_bool (Qpower 2 l) x then l else l - 1.

(** The binary64 float nearest to the real [x], ties to the even
    significand: 53 significant bits, and steps of [2 ^ -1074] below the
    normal range.  [round64 x] is [x] when [x] is a float.  The largest
    float is about 1.8e308; no number of seconds or milliseconds comes near
    it, and overflow to infinity is not modelled. *)
Definition round64 (x : Q) : Q :=
  match Qnum x with
  | 0 => 0%Q
  | _ =>
      let e := Z.max (ilog2 (Qabs x) - 52) (-1074) in
      Qred (inject_Z (rint (x / Qpower 2 e)) * Qpower 2 e)
  end.

(** [x * y] on floats: the exact product, rounded to a float. *)
Definition float_mul (x y : Q) : Q := round64 (round64 x * round64 y).

(** A number as Python holds it.  [min(a, b)] returns one of its arguments
    as it is, so [min] of an [int] and a [float] is an [int] or a
    [float]. *)
Inductive Number : Type :=
| NInt (z : Z)
| NFloat (x : Q).

Definition number_value (n : Number) : Q :=
  match n with
  | NInt z => inject_Z z
  | NFloat x => x
  end.

(** [int(n * 1000)]: integer arithmetic is exact; on a float the product
    is a float, which [int] truncates. *)
Definition int_times_1000 (n : Number) : Z :=
  match n with
  | NInt z => z * 1000
  | NFloat x => py_int (float_mul x 1000)
  end.

(** [min(a, b)] and [max(a, b)]: the first argument is kept unless the
    second is strictly smaller (resp. larger). *)
Definition py_min (a b : Q) : Q := if Qlt_le_dec b a then b else a.
Definition py_max (a b : Q) : Q := if Qlt_le_dec a b then b else a.

(** [sep.join(parts)]. *)
Fixpoint join (sep : string) (parts : list string) : string :=
  match parts with
  | [] => ""
  | [p] => p
  | p :: rest => p +:+ sep +:+ join sep rest
  end.

(** [str.zfill]-style left padding with the digit zero. *)
Definition zero_pad (width : nat) (digits : string) : string :=
  string_of_list_ascii (repeat "0"%char (width - String.length digits)) +:+ digits.

(** The format spec [{z:04d}]: sign, then zero padding to a total width
    of four characters. *)
Definition format_04d (z : Z) : string :=
  if z <? 0 then "-" +:+ zero_pad 3 (pretty (Z.abs_N z))
  else zero_pad 4 (pretty (Z.abs_N z)).

(** [str(z)] for an int. *)
Definition str_int (z : Z) : string := pretty z.

End Py.
Import Py.

(** ** [_videoutil/split.py] *)

(** The dataclass [VideoSegment]; its fields [id], [start] and [end] are
    [seg_id], [seg_start] and [seg_end] here. *)
Record VideoSegment : Type := mkVideoSegment {
  seg_id : string;
  seg_start : Q;
  seg_end : Q;
  frames_base64 : list string;
  audio_path : option string
}.

(** What the decoding library exposes of an opened clip: its duration
    (possibly [None]), whether it carries an audio stream, and the encoded
    JPEG payload of the frame shown at a time. *)
Record Clip : Type := mkClip {
  clip_duration : option Q;
  clip_has_audio : bool;
  clip_frame_jpeg : Q -> string
}.

Record VideoSegmenter : Type := mkVideoSegmenter {
  segment_duration : Z;
  frames_per_segment : Z
}.

(** [VideoSegmenter.__init__] *)
Definition VideoSegmenter_init (segment_duration frames_per_segment : Z) : VideoSegmenter :=
  {| segment_duration := Z.max 1 segment_duration;
     frames_per_segment := Z.max 0 frames_per_segment |}.

(** [np.linspace(start, stop, num, endpoint=False)] for [num > 0]. *)
Definition linspace_open (start stop : Q) (num : Z) : list Q :=
  let step := ((stop - start) / inject_Z num)%Q in
  map (fun i : nat => (start + inject_Z (Z.of_nat i) * step)%Q) (seq 0 (Z.to_nat num)).

(** [VideoSegmenter._frame_offsets] *)
Definition _frame_offsets (self : VideoSegmenter) (duration : Q) : list Q :=
  if (frames_per_segment self <=? 0) || Qle_bool duration 0 then []
  else linspace_open 0 (py_max (duration - (1 # 1000)) 0)%Q (frames_per_segment self).

(** [VideoSegmenter._frame_to_base64], on the already encoded payload. *)
Definition _frame_to_base64 (encoded : string) : string :=
  "data:image/jpeg;base64," +:+ encoded.

(** [duration = clip.duration or 0.0] *)
Definition duration_or_zero (d : option Q) : Q :=
  match d with
  | Some q => if Qeq_bool q 0 then 0%Q else q
  | None => 0%Q
  end.

(** [total_segments = int(math.ceil(duration / self.segment_duration))] *)
Definition total_segments (self : VideoSegmenter) (duration : Q) : Z :=
  Qceiling (duration / inject_Z (segment_duration self))%Q.

(** Loop body, first three statements: [start], [end], [segment_id]. *)
Definition segment_start (self : VideoSegmenter) (index : nat) : Z :=
  Z.of_nat index * segment_duration self.

Definition segment_end (self : VideoSegmenter) (duration : Q) (index : nat) : Q :=
  py_min (inject_Z ((Z.of_nat index + 1) * segment_duration self)) duration.

(** [end] as the object [min] returns: the [int] bound
    [(index + 1) * self.segment_duration], unless the [float] duration is
    strictly smaller.  Its value is [segment_end]. *)
Definition segment_end_number (self : VideoSegmenter) (duration : Q) (index : nat) : Number :=
  let bound := (Z.of_nat index + 1) * segment_duration self in
  if Qlt_le_dec duration (inject_Z bound) then NFloat duration else NInt bound.

(** [f"seg-{index:04d}-{int(start * 1000)}-{int(end * 1000)}"]; [start] is
    an [int]. *)
Definition segment_id_of (index : nat) (start : Z) (end_ : Number) : string :=
  "seg-" +:+ format_04d (Z.of_nat index) +:+ "-" +:+ str_int (start * 1000)
         +:+ "-" +:+ str_int (int_times_1000 end_).

(** ** The world the pipeline runs in *)

(** One row of the remote table, as built by [ingest_video]. *)
Record IndexRecord : Type := mkIndexRecord {
  rec_session_id : string;
  rec_segment_id : string;
  rec_start : Q;
  rec_end : Q;
  rec_summary : PyVal;
  rec_key_points : PyVal;
  rec_caption : string;
  rec_transcript : string;
  rec_embedding : list Q
}.

(** - [w_paths]: the paths that exist on disk (temporary directories and
      the audio files written into them);
    - [w_next_tmp]: the supply of suffixes of [tempfile.mkdtemp];
    - [w_videos]: the sources the decoding library can open, by path;
    - [w_table]: the rows of the remote table, by (session, segment);
    - [w_upserts]: the bulk upsert requests sent so far, oldest first;
    - [w_tick]: the number of remote calls made so far. *)
Record World : Type := mkWorld {
  w_paths : gset string;
  w_next_tmp : N;
  w_videos : gmap string Clip;
  w_table : gmap (string * string) IndexRecord;
  w_upserts : list (list IndexRecord);
  w_tick : nat
}.

Definition set_paths (f : gset string -> gset string) (w : World) : World :=
  mkWorld (f (w_paths w)) (w_next_tmp w) (w_videos w) (w_table w) (w_upserts w) (w_tick w).

(** State and exception monad. *)
Definition M (A : Type) : Type := World -> World * Result A.

Definition ret {A} (a : A) : M A := fun w => (w, Ok a).
Definition bind {A B} (m : M A) (k : A -> M B) : M B :=
  fun w => match m w with
           | (w1, Ok a) => k a w1
           | (w1, Raise e) => (w1, Raise e)
           end.

Notation "'let*' x ':=' m 'in' k" := (bind m (fun x => k))
  (at level 10, x pattern, m at level 100, k at level 200).
Notation "'run' m 'then' k" := (bind m (fun _ => k))
  (at level 10, m at level 100, k at level 200).

(** [try: body finally: cleanup], for a cleanup that returns [None]. *)
Definition try_finally {A} (body : M A) (cleanup : M unit) : M A :=
  fun w => match body w with
           | (w1, r) => match cleanup w1 with
                        | (w2, Ok _) => (w2, r)
                        | (w2, Raise e) => (w2, Raise e)
                        end
           end.

(** [tempfile.mkdtemp(prefix=...)] *)
Definition mkdtemp (prefix : string) : M string :=
  fun w =>
    let d := "/tmp/" +:+ prefix +:+ pretty (w_next_tmp w) in
    (mkWorld ({[ d ]} ∪ w_paths w) (N.succ (w_next_tmp w)) (w_videos w)
             (w_table w) (w_upserts w) (w_tick w), Ok d).

(** [path / name] *)
Definition path_join (dir name : string) : string := dir +:+ "/" +:+ name.

Definition under (dir p : string) : bool :=
  String.eqb p dir || String.prefix (dir +:+ "/") p.

(** [shutil.rmtree(dir, ignore_errors=True)]: the directory and all that is
    below it are gone afterwards; never raises. *)
Definition rmtree (dir : string) : M unit :=
  fun w => (set_paths (filter (fun p => under dir p = false)) w, Ok tt).

(** [Path.exists] *)
Definition path_exists (p : string) : M bool :=
  fun w => (w, Ok (bool_decide (p ∈ w_paths w))).

(** [VideoFileClip(video_path)]: an unreadable source makes the decoding
    library raise [OSError]. *)
Definition VideoFileClip (video_path : string) : M Clip :=
  fun w => match w_videos w !! video_path with
           | Some clip => (w, Ok clip)
           | None => (w, Raise (mkExc "OSError" video_path))
           end.

(** [subclip.audio.write_audiofile(path, ...)] *)
Definition write_audiofile (p : string) : M unit :=
  fun w => (set_paths (fun ps => {[ p ]} ∪ ps) w, Ok tt).

(** [[f(x) for x in xs]] where [f] has effects. *)
Fixpoint map_m {A B} (f : A -> M B) (xs : list A) : M (list B) :=
  match xs with
  | [] => ret []
  | x :: rest =>
      let* y := f x in
      let* ys := map_m f rest in
      ret (y :: ys)
  end.

(** One iteration of the loop of [VideoSegmenter.segment].  The subclip
    [clip.subclip(start, end)] lasts [end - start] and shows, at offset
    [t], the frame the clip shows at [start + t].  Decoding a frame and
    exporting the audio of an opened clip are taken to succeed. *)
Definition segment_one (self : VideoSegmenter) (clip : Clip) (duration : Q)
    (temp_dir : string) (index : nat) : M VideoSegment :=
  let start := segment_start self index in
  let end_ := segment_end self duration index in
  let segment_id := segment_id_of index start (segment_end_number self duration index) in
  let subclip_duration := (end_ - inject_Z start)%Q in
  let frame_offsets := _frame_offsets self subclip_duration in
  let frames :=
    map (fun offset => _frame_to_base64 (clip_frame_jpeg clip (inject_Z start + offset)%Q))
        frame_offsets in
  let* audio :=
    (if clip_has_audio clip then
       let p := path_join temp_dir (segment_id +:+ ".mp3") in
       run write_audiofile p then ret (Some p)
     else ret None) in
  ret (mkVideoSegment segment_id (inject_Z start) end_ frames audio).

(** The segment an iteration appends; the iteration has no other result
    than this value and the audio file it may write. *)
Definition segment_value (self : VideoSegmenter) (clip : Clip) (duration : Q)
    (temp_dir : string) (index : nat) : VideoSegment :=
  let start := segment_start self index in
  let end_ := segment_end self duration index in
  let segment_id := segment_id_of index start (segment_end_number self duration index) in
  mkVideoSegment segment_id (inject_Z start) end_
    (map (fun offset => _frame_to_base64 (clip_frame_jpeg clip (inject_Z start + offset)%Q))
         (_frame_offsets self (end_ - inject_Z start)%Q))
    (if clip_has_audio clip then Some (path_join temp_dir (segment_id +:+ ".mp3")) else None).

(** [VideoSegmenter.segment] *)
Definition segment (self : VideoSegmenter) (video_path : string)
    : M (list VideoSegment * string) :=
  let* temp_dir := mkdtemp "videorag_segments_" in
  let* clip := VideoFileClip video_path in
  let duration := duration_or_zero (clip_duration clip) in
  let total := total_segments self duration in
  let* segments := map_m (segment_one self clip duration temp_dir) (seq 0 (Z.to_nat total)) in
  ret (segments, temp_dir).

(** The evidence dictionary [query] builds for one match: a literal with
    these seven keys. *)
Record Evidence : Type := mkEvidence {
  ev_segment_id : PyVal;
  ev_start : PyVal;
  ev_end : PyVal;
  ev_summary : PyVal;
  ev_caption : PyVal;
  ev_transcript : PyVal;
  ev_similarity : PyVal
}.

(** ** Remote collaborators *)

(** The answer of the store to a bulk upsert it refuses: the error, and
    the rows of the request it had written when it refused. *)
Record Refusal : Type := mkRefusal {
  refusal_error : PyExc;
  refusal_written : IndexRecord -> bool
}.

(** The transcription, captioning, summarisation, embedding and answer
    services and the store are outside the package.  Each answer may depend
    on the arguments of the call and on the number of remote calls made
    before it; it is a value or an exception. *)
Record Remote : Type := mkRemote {
  transcriptions_create : nat -> string -> Result (option string);
  captioner_describe : nat -> VideoSegment -> string -> Result string;
  summarizer_summarize : nat -> string -> string -> Result PyVal;
  embeddings_create : nat -> string -> Result (list Q);
  answer_create : nat -> string -> list Evidence -> Result PyVal;
  upsert_fails : nat -> list IndexRecord -> option Refusal;
  rpc_fails : nat -> option PyExc;
  similarity : list Q -> list Q -> Q;
  py_repr : PyVal -> string
}.

Definition tick (w : World) : World :=
  mkWorld (w_paths w) (w_next_tmp w) (w_videos w) (w_table w) (w_upserts w) (S (w_tick w)).

(** [await service(...)] *)
Definition remote_call {A} (answer : nat -> Result A) : M A :=
  fun w => (tick w, answer (w_tick w)).

(** [str(v)], as used by f-strings; the rendering of a value that is not
    a [str] is left to [py_repr]. *)
Definition py_str (R : Remote) (v : PyVal) : string :=
  match v with
  | PyStr s => s
  | _ => py_repr R v
  end.

(** [v.get(key, default)]: only a [dict] has the method. *)
Definition py_get (v : PyVal) (key : string) (fallback : PyVal) : Result PyVal :=
  match v with
  | PyDict d => Ok (default fallback (d !! key))
  | _ => Raise (mkExc "AttributeError" "get")
  end.

(** [v[key]] for a string key. *)
Definition py_getitem (v : PyVal) (key : string) : Result PyVal :=
  match v with
  | PyDict d => match d !! key with
                | Some x => Ok x
                | None => Raise (mkExc "KeyError" key)
                end
  | _ => Raise (mkExc "TypeError" key)
  end.

Definition lift {A} (r : Result A) : M A := fun w => (w, r).

(** ** [_videoutil/asr.py] *)

(** [WhisperTranscriber.transcribe_path] *)
Definition transcribe_path (R : Remote) (audio_path : option string) : M string :=
  match audio_path with
  | None => ret ""
  | Some p =>
      let* present := path_exists p in
      if negb present then ret ""
      else
        let* text := remote_call (fun t => transcriptions_create R t p) in
        ret (match text with
             | Some s => if String.eqb s "" then "" else s
             | None => ""
             end)
  end.

(** ** [_utils.py] *)

(** The elements handed to [str.join] must all be [str]. *)
Fixpoint all_str (vs : list PyVal) : Result (list string) :=
  match vs with
  | [] => Ok []
  | PyStr s :: rest =>
      match all_str rest with
      | Ok ss => Ok (s :: ss)
      | Raise e => Raise e
      end
  | _ :: _ => Raise (mkExc "TypeError" "join")
  end.

(** The line feed of the string literals. *)
Definition nl : string := String (ascii_of_nat 10) "".

(** [build_embedding_input].  A [dict] met where a list of key points is
    expected is iterated over its keys (here in the enumeration order of
    the map). *)
Definition build_embedding_input (R : Remote) (summary : PyVal) (caption transcript : string)
    : Result string :=
  match py_get summary "key_points" (PyList []) with
  | Raise e => Raise e
  | Ok raw_points =>
      let points_list :=
        match raw_points with
        | PyStr _ => [raw_points]
        | PyList l => l
        | PyDict d => map (fun kv => PyStr (fst kv)) (map_to_list d)
        | _ => []
        end in
      match all_str points_list with
      | Raise e => Raise e
      | Ok points =>
          let key_points := join nl points in
          match py_get summary "summary" (PyStr "") with
          | Raise e => Raise e
          | Ok text =>
              Ok ("Summary:" +:+ nl +:+ py_str R text +:+ nl
                  +:+ "Key Points:" +:+ nl +:+ key_points +:+ nl
                  +:+ "Caption:" +:+ nl +:+ caption +:+ nl
                  +:+ "Transcript:" +:+ nl +:+ transcript)
          end
      end
  end.

(** ** [_storage/__init__.py] *)

(** The argument of the similarity-search procedure; the key
    [similarity_threshold] is present exactly when the option is [Some]. *)
Record Payload : Type := mkPayload {
  query_embedding : list Q;
  match_count : Z;
  filter_session_id : string;
  similarity_threshold : option Q
}.

Definition upsert_row (table : gmap (string * string) IndexRecord) (r : IndexRecord)
    : gmap (string * string) IndexRecord :=
  <[ (rec_session_id r, rec_segment_id r) := r ]> table.

(** [SupabaseVectorStore._upsert_sync]: one bulk request,
    [table.upsert(records).execute()].  The store writes every row,
    overwriting by (session, segment), or it refuses the request; the rows
    it had written when it refused stay, since the method sends nothing
    else. *)
Definition _upsert_sync (R : Remote) (records : list IndexRecord) : M unit :=
  fun w =>
    let sent := w_upserts w ++ [records] in
    match upsert_fails R (w_tick w) records with
    | Some refusal =>
        (mkWorld (w_paths w) (w_next_tmp w) (w_videos w)
                 (foldl upsert_row (w_table w)
                        (List.filter (refusal_written refusal) records))
                 sent (S (w_tick w)),
         Raise (refusal_error refusal))
    | None =>
        (mkWorld (w_paths w) (w_next_tmp w) (w_videos w)
                 (foldl upsert_row (w_table w) records) sent (S (w_tick w)),
         Ok tt)
    end.

(** [SupabaseVectorStore.upsert_records] *)
Definition upsert_records (R : Remote) (records : list IndexRecord) : M unit :=
  match records with
  | [] => ret tt
  | _ => _upsert_sync R records
  end.

(** The row the store returns for a stored record and its score. *)
Definition match_row (scored : Q * IndexRecord) : gmap string PyVal :=
  let r := snd scored in
  {[ "similarity" := PyFloat (fst scored);
     "metadata" := PyDict {[ "segment_id" := PyStr (rec_segment_id r);
                             "start" := PyFloat (rec_start r);
                             "end" := PyFloat (rec_end r);
                             "summary" := rec_summary r;
                             "caption" := PyStr (rec_caption r);
                             "transcript" := PyStr (rec_transcript r) ]} ]}.

Definition score_geb (a b : Q * IndexRecord) : bool := Qle_bool (fst b) (fst a).

(** Modelled from the spec: the similarity-search procedure of the store
    (the function named by [match_rpc], which the package only calls).
    Results are restricted to the given session, filtered to similarity at
    least the threshold when one is supplied, ranked by descending
    similarity and truncated to at most [match_count]. *)
Definition match_procedure (R : Remote) (table : gmap (string * string) IndexRecord)
    (p : Payload) : list (gmap string PyVal) :=
  let in_session :=
    filter (fun r => rec_session_id r = filter_session_id p) (map snd (map_to_list table)) in
  let scored := map (fun r => (similarity R (query_embedding p) (rec_embedding r), r)) in_session in
  let kept :=
    match similarity_threshold p with
    | Some t => filter (fun sr => Qle_bool t (fst sr) = true) scored
    | None => scored
    end in
  let ranked := merge_sort (fun a b => score_geb a b) kept in
  map match_row (take (Z.to_nat (match_count p)) ranked).

(** [SupabaseVectorStore._rpc_sync]: the attribute [data] of the response. *)
Definition _rpc_sync (R : Remote) (p : Payload) : M (option (list (gmap string PyVal))) :=
  fun w =>
    match rpc_fails R (w_tick w) with
    | Some e => (tick w, Raise e)
    | None => (tick w, Ok (Some (match_procedure R (w_table w) p)))
    end.

(** [SupabaseVectorStore.similarity_search] *)
Definition similarity_search (R : Remote) (session_id : string) (embedding : list Q)
    (match_count : Z) (similarity_threshold : option Q) : M (list (gmap string PyVal)) :=
  let payload :=
    match similarity_threshold with
    | Some t => mkPayload embedding match_count session_id (Some t)
    | None => mkPayload embedding match_count session_id None
    end in
  let* data := _rpc_sync R payload in
  ret (match data with
       | None => []
       | Some [] => []
       | Some rows => rows
       end).

(** ** [_op.py] *)

Record CloudVideoRAGService : Type := mkService {
  segmenter : VideoSegmenter;
  remote : Remote
}.

(** [CloudVideoRAGService.__post_init__], as far as the segmenter goes. *)
Definition CloudVideoRAGService_init (segment_duration frames_per_segment : Z) (R : Remote)
    : CloudVideoRAGService :=
  mkService (VideoSegmenter_init segment_duration frames_per_segment) R.

(** Body of the loop of [ingest_video]: the record appended for a segment. *)
Definition enrich_segment (R : Remote) (session_id : string) (seg : VideoSegment)
    : M IndexRecord :=
  let* transcript := transcribe_path R (audio_path seg) in
  let* caption := remote_call (fun t => captioner_describe R t seg transcript) in
  let* summary := remote_call (fun t => summarizer_summarize R t transcript caption) in
  let* embedding_input := lift (build_embedding_input R summary caption transcript) in
  let* embedding := remote_call (fun t => embeddings_create R t embedding_input) in
  let* summary_text := lift (py_getitem summary "summary") in
  let* key_points := lift (py_getitem summary "key_points") in
  ret (mkIndexRecord session_id (seg_id seg) (seg_start seg) (seg_end seg)
                     summary_text key_points caption transcript embedding).

(** [CloudVideoRAGService.ingest_video].  The list [records] is local to
    the call and grows by one record per iteration, in segment order. *)
Definition ingest_video (self : CloudVideoRAGService) (session_id video_path : string)
    : M unit :=
  let* (segments, temp_dir) := segment (segmenter self) video_path in
  try_finally
    (let* records := map_m (enrich_segment (remote self) session_id) segments in
     upsert_records (remote self) records)
    (rmtree temp_dir).

(** The evidence built from one match in [query]. *)
Definition evidence_of_match (match_ : gmap string PyVal) : Result Evidence :=
  let data := default (PyDict match_) (match_ !! "metadata") in
  match py_get data "segment_id" PyNone with Raise e => Raise e | Ok segment_id =>
  match py_get data "start" PyNone with Raise e => Raise e | Ok start =>
  match py_get data "end" PyNone with Raise e => Raise e | Ok end_ =>
  match py_get data "summary" PyNone with Raise e => Raise e | Ok summary =>
  match py_get data "caption" PyNone with Raise e => Raise e | Ok caption =>
  match py_get data "transcript" PyNone with Raise e => Raise e | Ok transcript =>
  let top := default PyNone (match_ !! "similarity") in
  if truthy top
  then Ok (mkEvidence segment_id start end_ summary caption transcript top)
  else
    match py_get data "similarity" PyNone with Raise e => Raise e | Ok below =>
    Ok (mkEvidence segment_id start end_ summary caption transcript below)
    end
  end end end end end end.

Fixpoint evidence_of_matches (matches : list (gmap string PyVal)) : Result (list Evidence) :=
  match matches with
  | [] => Ok []
  | m :: rest =>
      match evidence_of_match m with
      | Raise e => Raise e
      | Ok ev =>
          match evidence_of_matches rest with
          | Raise e => Raise e
          | Ok evs => Ok (ev :: evs)
          end
      end
  end.

(** [CloudVideoRAGService.query] *)
Definition query (self : CloudVideoRAGService) (session_id question : string)
    (top_k : Z) (similarity_threshold : option Q) : M PyVal :=
  let R := remote self in
  let* query_embedding := remote_call (fun t => embeddings_create R t question) in
  let* matches := similarity_search R session_id query_embedding top_k similarity_threshold in
  let* evidence := lift (evidence_of_matches matches) in
  remote_call (fun t => answer_create R t question evidence).

(** ** Vocabulary of the properties *)

(** The reading of "rounded to milliseconds": a time in seconds
    multiplied by 1000 and rounded to the nearest integer, ties to even
    (what [round] computes). *)
Definition spec_round (x : Q) : Z :=
  let f := Qfloor x in
  let r := (x - inject_Z f)%Q in
  if Qlt_le_dec r (1 # 2) then f
  else if Qlt_le_dec (1 # 2) r then f + 1
  else if Z.even f then f else f + 1.

Definition spec_round_ms (seconds : Q) : Z := spec_round (seconds * 1000)%Q.

(** The identity a segment would have if its times were rounded. *)
Definition spec_segment_id (index : nat) (start end_ : Q) : string :=
  "seg-" +:+ format_04d (Z.of_nat index) +:+ "-" +:+ str_int (spec_round_ms start)
         +:+ "-" +:+ str_int (spec_round_ms end_).

(** Decimal digits, and the strings made of them. *)
Definition is_digit (c : ascii) : bool :=
  (48 <=? nat_of_ascii c)%nat && (nat_of_ascii c <=? 57)%nat.

Fixpoint digits_only (s : string) : bool :=
  match s with
  | EmptyString => true
  | String c rest => is_digit c && digits_only rest
  end.

(** A run of [n] zero digits, as [zero_pad] prepends. *)
Definition zeros (n : nat) : string := string_of_list_ascii (repeat "0"%char n).

(** The table and the log of bulk requests are as they were. *)
Definition store_kept (w w' : World) : Prop :=
  w_table w' = w_table w ∧ w_upserts w' = w_upserts w.

(** Nothing but remote calls happened in between. *)
Definition calls_only (w w' : World) : Prop :=
  w_paths w' = w_paths w ∧ store_kept w w'.

(** The record [ingest_video] appends for a segment carries the session
    and the identity and bounds of the segment. *)
Definition record_of_segment (session_id : string) (seg : VideoSegment) (r : IndexRecord)
    : Prop :=
  rec_session_id r = session_id ∧ rec_segment_id r = seg_id seg
  ∧ rec_start r = seg_start seg ∧ rec_end r = seg_end seg.

(** A returned row carries a similarity score of at least [t]. *)
Definition row_similarity_at_least (t : Q) (row : gmap string PyVal) : Prop :=
  ∃ s, row !! "similarity" = Some (PyFloat s) ∧ (t <= s)%Q.

(** A top-level similarity that is absent, or equal to 0. *)
Definition absent_or_zero (v : option PyVal) : bool :=
  match v with
  | None => true
  | Some (PyInt z) => z =? 0
  | Some (PyFloat q) => Qeq_bool q 0
  | Some _ => false
  end.

(** The evidence whose six projected fields are read from the dictionary
    [d] with [None] for a missing key, and whose similarity is given. *)
Definition projected (d : gmap string PyVal) (similarity : PyVal) : Evidence :=
  mkEvidence (default PyNone (d !! "segment_id")) (default PyNone (d !! "start"))
             (default PyNone (d !! "end")) (default PyNone (d !! "summary"))
             (default PyNone (d !! "caption")) (default PyNone (d !! "transcript"))
             similarity.

(** ** Sample inputs *)

Module Sample.

(** A similarity score: the inner product of two vectors. *)
Fixpoint dot (a b : list Q) : Q :=
  match a, b with
  | x :: a', y :: b' => (x * y + dot a' b')%Q
  | _, _ => 0%Q
  end.

(** Services that always answer. *)
Definition services : Remote :=
  mkRemote (fun _ _ => Ok (Some "hello"))
           (fun _ _ _ => Ok "a person waves")
           (fun _ _ _ => Ok (PyDict {[ "summary" := PyStr "greeting";
                                       "key_points" := PyList [PyStr "wave"] ]}))
           (fun _ _ => Ok [1%Q; 0%Q])
           (fun _ _ _ => Ok (PyDict {[ "answer" := PyStr "yes" ]}))
           (fun _ _ => None)
           (fun _ => None)
           dot
           (fun _ => "").

Definition clip_65 : Clip := mkClip (Some 65%Q) true (fun _ => "").
Definition clip_65_0006 : Clip := mkClip (Some (650006 # 10000)%Q) false (fun _ => "").
Definition clip_empty : Clip := mkClip (Some 0%Q) false (fun _ => "").
Definition clip_2_01 : Clip := mkClip (Some (201 # 100)%Q) false (fun _ => "").

Definition world : World :=
  mkWorld ∅ 0 {[ "talk.mp4" := clip_65; "long.mp4" := clip_65_0006;
                 "empty.mp4" := clip_empty ]} ∅ [] 0.

(** A world whose one source lasts 2.01 seconds. *)
Definition short_world : World :=
  mkWorld ∅ 0 {[ "short.mp4" := clip_2_01 ]} ∅ [] 0.

(** Services whose store refuses every bulk upsert after it has written
    the rows of the request that start before the 60th second. *)
Definition refusing_services : Remote :=
  mkRemote (transcriptions_create services) (captioner_describe services)
           (summarizer_summarize services) (embeddings_create services)
           (answer_create services)
           (fun _ _ => Some (mkRefusal (mkExc "APIError" "upsert refused")
                                       (fun r => negb (Qle_bool 60 (rec_start r)))))
           (rpc_fails services) (similarity services) (py_repr services).

Definition record (segment_id : string) (embedding : list Q) : IndexRecord :=
  mkIndexRecord "session-1" segment_id 0 30 (PyStr "greeting") (PyList [PyStr "wave"])
                "a person waves" "hello" embedding.

(** A world whose table holds three records of one session. *)
Definition indexed_world : World :=
  mkWorld ∅ 0 ∅
    (foldl upsert_row ∅ [ record "seg-a" [1%Q; 0%Q];
                          record "seg-b" [0%Q; 1%Q];
                          record "seg-c" [(1 # 2)%Q; (1 # 2)%Q] ])
    [] 0.

(** The third segment of ["talk.mp4"] cut every 30 seconds with two
    frames per segment. *)
Definition segment_2 : VideoSegment :=
  mkVideoSegment "seg-0002-60000-65000" 60 65
    [ "data:image/jpeg;base64,"; "data:image/jpeg;base64," ]
    (Some "/tmp/videorag_segments_0/seg-0002-60000-65000.mp3").

(** A row without a [metadata] key whose similarity is 0. *)
Definition flat_match_zero : gmap string PyVal :=
  {[ "segment_id" := PyStr "seg-0000-0-30000"; "similarity" := PyFloat 0 ]}.

(** A row with a [metadata] payload and no top-level similarity. *)
Definition nested_match : gmap string PyVal :=
  {[ "metadata" := PyDict {[ "segment_id" := PyStr "seg-0000-0-30000";
                             "similarity" := PyFloat (1 # 2) ]} ]}.

End Sample.

(** ** Further code of the package *)

(** [SupabaseVectorStore._delete_sync]: the request
    [delete().eq("session_id", session_id)] removes the rows whose column
    [session_id] has the given value; the store answers with success or
    with an exception, [delete_fails] telling which.  The properties below
    are about requests the store carries out. *)
Definition _delete_sync (delete_fails : nat -> string -> option PyExc) (session_id : string)
    : M unit :=
  fun w =>
    match delete_fails (w_tick w) session_id with
    | Some e => (tick w, Raise e)
    | None =>
        (mkWorld (w_paths w) (w_next_tmp w) (w_videos w)
                 (filter (fun kr => rec_session_id (snd kr) ≠ session_id) (w_table w))
                 (w_upserts w) (S (w_tick w)),
         Ok tt)
    end.

(** [SupabaseVectorStore.delete_session] *)
Definition delete_session (delete_fails : nat -> string -> option PyExc)
    (session_id : string) : M unit :=
  _delete_sync delete_fails session_id.

(** [CloudVideoRAGService.cleanup] *)
Definition cleanup (self : CloudVideoRAGService)
    (delete_fails : nat -> string -> option PyExc) (session_id : string) : M unit :=
  delete_session delete_fails session_id.

(** [_videoutil/caption.py]: one entry of the user message. *)
Inductive ContentItem : Type :=
| InputText (text : string)
| InputImage (image_base64 : string).

(** [x if x else 'N/A'] *)
Definition or_na (s : string) : string := if String.eqb s "" then "N/A" else s.

(** [VisionCaptioner.describe]: the prompt, chosen by the presence of
    frames. *)
Definition describe_prompt (seg : VideoSegment) : string :=
  match frames_base64 seg with
  | [] => "No frames were extracted for this segment."
          +:+ " Use the transcript (if any) to summarize the visuals."
  | _ :: _ => "Analyze the provided video frames and transcript."
  end.

(** [VisionCaptioner.describe]: the list [user_content] sent to the
    model, the text entry first, then one image entry per frame. *)
Definition describe_user_content (seg : VideoSegment) (transcript : string)
    : list ContentItem :=
  InputText (describe_prompt seg +:+ nl +:+ nl
             +:+ "Transcript:" +:+ nl +:+ or_na transcript +:+ nl
             +:+ "Describe the scene, important actions and any visible text.")
  :: map InputImage (frames_base64 seg).

(** ** Further vocabulary *)

(** The sum of a list of rationals. *)
Definition Qsum (l : list Q) : Q := foldr Qplus 0%Q l.

(** The length of a segment in seconds. *)
Definition seg_length (seg : VideoSegment) : Q := (seg_end seg - seg_start seg)%Q.

(** Between [w] and [w'] the paths [added] came to exist and nothing
    else changed. *)
Definition disk_grew (added : gset string) (w w' : World) : Prop :=
  w_paths w' = added ∪ w_paths w
  ∧ w_next_tmp w' = w_next_tmp w ∧ w_videos w' = w_videos w
  ∧ w_table w' = w_table w ∧ w_upserts w' = w_upserts w ∧ w_tick w' = w_tick w.

(** The audio files of a list of segments. *)
Definition audio_files (segments : list VideoSegment) : gset string :=
  list_to_set (omap audio_path segments).

(** Every row of the table is stored under its own session and segment
    identity. *)
Definition table_keyed (table : gmap (string * string) IndexRecord) : Prop :=
  ∀ key r, table !! key = Some r → key = (rec_session_id r, rec_segment_id r).

(** A summary the record of a segment can be built from: a dictionary
    with both keys. *)
Definition has_both_keys (v : PyVal) : bool :=
  match v with
  | PyDict d => bool_decide (is_Some (d !! "summary")) && bool_decide (is_Some (d !! "key_points"))
  | _ => false
  end.

(** A store that never refuses a deletion. *)
Definition delete_succeeds : nat -> string -> option PyExc := fun _ _ => None.

(** ** Further sample inputs *)

Module Sample2.

(** Services whose summarizer forgets the key points. *)
Definition services_without_key_points : Remote :=
  mkRemote (fun _ _ => Ok (Some "hello"))
           (fun _ _ _ => Ok "a person waves")
           (fun _ _ _ => Ok (PyDict {[ "summary" := PyStr "greeting" ]}))
           (fun _ _ => Ok [1%Q; 0%Q])
           (fun _ _ _ => Ok (PyDict {[ "answer" := PyStr "yes" ]}))
           (fun _ _ => None)
           (fun _ => None)
           Sample.dot
           (fun _ => "").

(** The segments of ["talk.mp4"] cut every 30 seconds, two frames each. *)
Definition segments : list VideoSegment :=
  map (segment_value (VideoSegmenter_init 30 2) Sample.clip_65 65 "/tmp/videorag_segments_0")
      (seq 0 3).

(** The state in which the segmentation of ["talk.mp4"] ends. *)
Definition segmented_world : World :=
  fst (segment (VideoSegmenter_init 30 2) "talk.mp4" Sample.world).

(** A world with both the sample sources and the sample records. *)
Definition stocked_world : World :=
  mkWorld ∅ 0 (w_videos Sample.world) (w_table Sample.indexed_world) [] 0.

End Sample2.

(** * Properties *)

(** ** Arithmetic of rationals used below *)

Lemma inject_Z_pos (z : Z) : 0 < z -> (0 < inject_Z z)%Q.
Proof. intros Hz. change (inject_Z 0 < inject_Z z)%Q. rewrite <- Zlt_Qlt. exact Hz. Qed.

Lemma inject_Z_nonneg (z : Z) : 0 <= z -> (0 <= inject_Z z)%Q.
Proof. intros Hz. change (inject_Z 0 <= inject_Z z)%Q. rewrite <- Zle_Qle. exact Hz. Qed.

Lemma Qdiv_times (x y : Q) : (0 < y)%Q -> (x == (x / y) * y)%Q.
Proof.
  intros Hy. rewrite Qmult_comm, Qmult_div_r; [reflexivity|].
  intros E. rewrite E in Hy. discriminate.
Qed.

Lemma ceiling_bounds (D : Q) (S : Z) :
  0 < S -> (0 < D)%Q ->
  let n := Qceiling (D / inject_Z S) in
  1 <= n /\ (D <= inject_Z (n * S))%Q /\ (inject_Z ((n - 1) * S) < D)%Q.
Proof.
  intros HS HD n.
  pose proof (inject_Z_pos S HS) as Hs.
  pose proof (Qdiv_times D (inject_Z S) Hs) as Hx.
  pose proof (Qle_ceiling (D / inject_Z S)) as Hle.
  pose proof (Qceiling_lt (D / inject_Z S)) as Hlt.
  fold n in Hle, Hlt.
  set (x := (D / inject_Z S)%Q) in *.
  assert (Hxpos : (0 < x)%Q).
  { unfold x. apply Qlt_shift_div_l; [exact Hs|]. lra. }
  assert (Hn : 1 <= n).
  { destruct (Z_lt_le_dec n 1) as [Hc|]; [|lia].
    assert (inject_Z n <= 0)%Q
      by (change (inject_Z n <= inject_Z 0)%Q; rewrite <- Zle_Qle; lia).
    lra. }
  split; [exact Hn|].
  rewrite !inject_Z_mult. unfold Z.sub in *. rewrite inject_Z_plus in *.
  change (inject_Z (-1)) with (-1 # 1)%Q in *.
  split; nra.
Qed.

Lemma py_min_Qmin (a b : Q) : (py_min a b == Qmin a b)%Q.
Proof.
  unfold py_min. destruct (Qlt_le_dec b a) as [H|H].
  - symmetry. apply Q.min_r. lra.
  - symmetry. apply Q.min_l. exact H.
Qed.

Lemma py_max_zero_bounds (d : Q) :
  (0 < d)%Q -> (0 <= py_max (d - (1 # 1000)) 0 /\ py_max (d - (1 # 1000)) 0 < d)%Q.
Proof.
  intros Hd. unfold py_max. destruct (Qlt_le_dec (d - (1 # 1000)) 0); split; lra.
Qed.

(** ** Segmentation *)

Lemma segment_one_returns self clip duration temp_dir index w :
  ∃ w', segment_one self clip duration temp_dir index w
        = (w', Ok (segment_value self clip duration temp_dir index)).
Proof.
  unfold segment_one, segment_value, bind, ret, write_audiofile.
  destruct (clip_has_audio clip); eauto.
Qed.

Lemma map_m_segment_one self clip duration temp_dir indices w :
  ∃ w', map_m (segment_one self clip duration temp_dir) indices w
        = (w', Ok (map (segment_value self clip duration temp_dir) indices)).
Proof.
  revert w. induction indices as [|i rest IH]; intros w; simpl.
  - eexists; reflexivity.
  - unfold bind at 1.
    destruct (segment_one_returns self clip duration temp_dir i w) as [w1 ->].
    unfold bind at 1. destruct (IH w1) as [w2 ->]. eexists; reflexivity.
Qed.

(** An opened source is always segmented: the call returns one segment
    per index below [total_segments]. *)
Lemma segment_returns self video_path clip w :
  w_videos w !! video_path = Some clip ->
  ∃ w' temp_dir,
    segment self video_path w =
      (w', Ok (map (segment_value self clip (duration_or_zero (clip_duration clip)) temp_dir)
                   (seq 0 (Z.to_nat (total_segments self
                                       (duration_or_zero (clip_duration clip))))),
               temp_dir)).
Proof.
  intros Hv. unfold segment. unfold bind at 1. unfold mkdtemp.
  unfold bind at 1. unfold VideoFileClip. simpl. rewrite Hv.
  unfold bind at 1.
  edestruct map_m_segment_one as [w2 ->]. unfold ret. eauto.
Qed.

Lemma duration_or_zero_pos (D : Q) : (0 < D)%Q -> duration_or_zero (Some D) = D.
Proof.
  intros HD. unfold duration_or_zero.
  destruct (Qeq_bool D 0) eqn:E; [|reflexivity].
  apply Qeq_bool_eq in E. lra.
Qed.

Lemma duration_or_zero_nonpositive (d : option Q) :
  (d = None ∨ ∃ q, d = Some q ∧ (q <= 0)%Q) → (duration_or_zero d <= 0)%Q.
Proof.
  intros [-> | (q & -> & Hq)]; simpl; [lra|].
  destruct (Qeq_bool q 0); lra.
Qed.

Lemma init_segment_duration (S fps : Z) :
  0 < S -> segment_duration (VideoSegmenter_init S fps) = S.
Proof. intros HS. simpl. lia. Qed.

Lemma init_segment_duration_pos (S fps : Z) :
  0 < segment_duration (VideoSegmenter_init S fps).
Proof. simpl. lia. Qed.

Lemma total_segments_nonpositive (self : VideoSegmenter) (d : Q) :
  0 < segment_duration self -> (d <= 0)%Q -> Z.to_nat (total_segments self d) = 0%nat.
Proof.
  intros HS Hd. unfold total_segments.
  pose proof (inject_Z_pos _ HS) as Hs.
  assert (Hq : (d / inject_Z (segment_duration self) <= 0)%Q).
  { apply Qle_shift_div_r; [exact Hs|]. lra. }
  apply Qceiling_resp_le in Hq. change (Qceiling 0) with 0 in Hq. lia.
Qed.

(** The segments of a run on a source of positive duration, spelled out. *)
Lemma segment_run_inv (S fps : Z) (D : Q) (w w' : World) (video_path temp_dir : string)
    (clip : Clip) (segments : list VideoSegment) :
  0 < S -> (0 < D)%Q ->
  w_videos w !! video_path = Some clip ->
  clip_duration clip = Some D ->
  segment (VideoSegmenter_init S fps) video_path w = (w', Ok (segments, temp_dir)) ->
  segments = map (segment_value (VideoSegmenter_init S fps) clip D temp_dir)
                 (seq 0 (Z.to_nat (Qceiling (D / inject_Z S)))).
Proof.
  intros HS HD Hv Hd Hrun.
  destruct (segment_returns (VideoSegmenter_init S fps) video_path clip w Hv)
    as (w1 & tmp & Hrun').
  rewrite Hrun in Hrun'. injection Hrun' as _ Hsegs Htmp. subst tmp.
  rewrite Hd, (duration_or_zero_pos D HD) in Hsegs.
  unfold total_segments in Hsegs. rewrite (init_segment_duration S fps HS) in Hsegs.
  exact Hsegs.
Qed.

Lemma lookup_segment_values (self : VideoSegmenter) clip D temp_dir (n i : nat) seg :
  map (segment_value self clip D temp_dir) (seq 0 n) !! i = Some seg ->
  (i < n)%nat /\ seg = segment_value self clip D temp_dir i.
Proof.
  rewrite list_lookup_fmap.
  destruct (seq 0 n !! i) as [j|] eqn:Hj; [|discriminate].
  apply lookup_seq in Hj as [-> Hlt]. simpl. intros [= <-]. split; [exact Hlt|reflexivity].
Qed.

(** C1: for a readable source of duration [D > 0] and a configured
    [segment_duration] [S > 0], [segment] returns exactly [ceil(D / S)]
    segments; segment [i] starts at [i * S] and ends at
    [min((i + 1) * S, D)]; no segment ends after [D], and the last one
    ends at [D]. *)
Theorem segment_count_and_bounds (S fps : Z) (D : Q) (w : World)
    (video_path : string) (clip : Clip) :
  0 < S -> (0 < D)%Q ->
  w_videos w !! video_path = Some clip ->
  clip_duration clip = Some D ->
  ∃ w' segments temp_dir,
    segment (VideoSegmenter_init S fps) video_path w = (w', Ok (segments, temp_dir))
    ∧ Z.of_nat (length segments) = Qceiling (D / inject_Z S)
    ∧ (∀ (i : nat) seg, segments !! i = Some seg →
         seg_start seg = inject_Z (Z.of_nat i * S)
         ∧ (seg_end seg == Qmin (inject_Z ((Z.of_nat i + 1) * S)) D)%Q
         ∧ (seg_end seg <= D)%Q)
    ∧ (∃ final, last segments = Some final ∧ (seg_end final == D)%Q).
Proof.
  intros HS HD Hv Hd.
  destruct (segment_returns (VideoSegmenter_init S fps) video_path clip w Hv)
    as (w' & temp_dir & Hrun).
  pose proof (segment_run_inv S fps D w w' video_path temp_dir clip _ HS HD Hv Hd Hrun)
    as Hsegs.
  rewrite Hsegs in Hrun.
  destruct (ceiling_bounds D S HS HD) as (Hn & Hupper & Hlower).
  set (n := Qceiling (D / inject_Z S)) in *.
  eexists w', _, temp_dir. split; [exact Hrun|].
  split; [rewrite length_map, length_seq; lia|].
  split.
  - intros i seg Hi. apply lookup_segment_values in Hi as [_ ->].
    cbn [seg_start seg_end segment_value].
    unfold segment_start, segment_end. rewrite (init_segment_duration S fps HS).
    split; [reflexivity|]. split; [apply py_min_Qmin|].
    rewrite py_min_Qmin. apply Q.le_min_r.
  - rewrite fmap_last.
    assert (Hlast : last (seq 0 (Z.to_nat n)) = Some (Z.to_nat (n - 1))).
    { replace (Z.to_nat n) with (Datatypes.S (Z.to_nat (n - 1))) by lia.
      rewrite seq_S, last_snoc. reflexivity. }
    rewrite Hlast. eexists; split; [reflexivity|].
    cbn [seg_end segment_value]. unfold segment_end.
    rewrite (init_segment_duration S fps HS), py_min_Qmin.
    replace (Z.of_nat (Z.to_nat (n - 1)) + 1) with n by lia.
    apply Q.min_r. exact Hupper.
Qed.

Lemma segment_count_and_bounds_witness :
  ∃ w' segments temp_dir,
    segment (VideoSegmenter_init 30 2) "talk.mp4" Sample.world = (w', Ok (segments, temp_dir))
    ∧ Z.of_nat (length segments) = Qceiling (65 / inject_Z 30)
    ∧ (∀ (i : nat) seg, segments !! i = Some seg →
         seg_start seg = inject_Z (Z.of_nat i * 30)
         ∧ (seg_end seg == Qmin (inject_Z ((Z.of_nat i + 1) * 30)) 65)%Q
         ∧ (seg_end seg <= 65)%Q)
    ∧ (∃ final, last segments = Some final ∧ (seg_end final == 65)%Q).
Proof.
  apply (segment_count_and_bounds 30 2 65 Sample.world "talk.mp4" Sample.clip_65).
  - reflexivity.
  - reflexivity.
  - vm_compute. reflexivity.
  - reflexivity.
Defined.

(** The scenario of the specification: 65 seconds cut every 30 seconds. *)
Example segment_65_by_30 :
  ∃ w',
    segment (VideoSegmenter_init 30 0) "talk.mp4" Sample.world
    = (w', Ok ([ mkVideoSegment "seg-0000-0-30000" 0 30 []
                   (Some "/tmp/videorag_segments_0/seg-0000-0-30000.mp3");
                 mkVideoSegment "seg-0001-30000-60000" 30 60 []
                   (Some "/tmp/videorag_segments_0/seg-0001-30000-60000.mp3");
                 mkVideoSegment "seg-0002-60000-65000" 60 65 []
                   (Some "/tmp/videorag_segments_0/seg-0002-60000-65000.mp3") ],
               "/tmp/videorag_segments_0")).
Proof. eexists. vm_compute. reflexivity. Qed.

(** ** Keyframe offsets *)

Lemma length_linspace_open start stop num :
  length (linspace_open start stop num) = Z.to_nat num.
Proof. unfold linspace_open. rewrite length_map, length_seq. reflexivity. Qed.

Lemma linspace_open_lookup start stop num (k : nat) t :
  linspace_open start stop num !! k = Some t ->
  (k < Z.to_nat num)%nat /\
  t = (start + inject_Z (Z.of_nat k) * ((stop - start) / inject_Z num))%Q.
Proof.
  unfold linspace_open. rewrite list_lookup_fmap.
  destruct (seq 0 (Z.to_nat num) !! k) as [j|] eqn:Hj; [|discriminate].
  apply lookup_seq in Hj as [-> Hk]. simpl. intros [= <-]. split; [exact Hk|reflexivity].
Qed.

Lemma scaled_step_bounds (stop : Q) (num : Z) (k : nat) :
  (0 <= stop)%Q -> (k < Z.to_nat num)%nat ->
  (0 <= stop / inject_Z num /\
   0 <= inject_Z (Z.of_nat k) * (stop / inject_Z num) <= stop)%Q.
Proof.
  intros Hstop Hk.
  assert (Hnum : 0 < num) by lia.
  pose proof (inject_Z_pos num Hnum) as Hn.
  assert (Hkn : (inject_Z (Z.of_nat k) <= inject_Z num)%Q) by (rewrite <- Zle_Qle; lia).
  pose proof (inject_Z_nonneg (Z.of_nat k) (Nat2Z.is_nonneg k)) as Hk0.
  pose proof (Qdiv_times stop (inject_Z num) Hn) as Hstep.
  set (step := (stop / inject_Z num)%Q) in *.
  assert (Hs0 : (0 <= step)%Q).
  { unfold step. apply Qle_shift_div_l; [exact Hn|]. lra. }
  split; [exact Hs0|]. split; nra.
Qed.

(** Every iteration of the loop cuts a subclip of positive duration, at
    most [segment_duration] long. *)
Lemma subclip_duration_bounds (S : Z) (D : Q) (i : nat) :
  0 < S -> (0 < D)%Q -> Z.of_nat i < Qceiling (D / inject_Z S) ->
  let d := (py_min (inject_Z ((Z.of_nat i + 1) * S)) D - inject_Z (Z.of_nat i * S))%Q in
  (0 < d /\ d <= inject_Z S)%Q.
Proof.
  intros HS HD Hi d.
  destruct (ceiling_bounds D S HS HD) as (Hn & Hupper & Hlower).
  set (n := Qceiling (D / inject_Z S)) in *.
  pose proof (inject_Z_pos S HS) as Hs.
  assert (Hin : (inject_Z (Z.of_nat i * S) <= inject_Z ((n - 1) * S))%Q)
    by (rewrite <- Zle_Qle; nia).
  assert (Hnext : (inject_Z ((Z.of_nat i + 1) * S)
                   == inject_Z (Z.of_nat i * S) + inject_Z S)%Q).
  { rewrite <- inject_Z_plus.
    replace ((Z.of_nat i + 1) * S) with (Z.of_nat i * S + S) by lia. reflexivity. }
  subst d. unfold py_min.
  destruct (Qlt_le_dec D (inject_Z ((Z.of_nat i + 1) * S))); split; lra.
Qed.

(** C7: for every segment returned, the frames are sampled at the offsets
    [_frame_offsets] gives for the segment's own duration: there are
    exactly [frames_per_segment] of them (none when it is 0), offset [k] is
    [k] times a fixed step, every offset lies in [[0, d)] for the
    segment's duration [d], hence in [[0, segment_duration)], and offset 0
    comes first when [frames_per_segment >= 1]. *)
Theorem keyframe_offsets_sampling (S fps : Z) (D : Q) (w w' : World)
    (video_path temp_dir : string) (clip : Clip)
    (segments : list VideoSegment) (i : nat) (seg : VideoSegment) :
  0 < S -> (0 < D)%Q ->
  w_videos w !! video_path = Some clip ->
  clip_duration clip = Some D ->
  segment (VideoSegmenter_init S fps) video_path w = (w', Ok (segments, temp_dir)) ->
  segments !! i = Some seg ->
  let self := VideoSegmenter_init S fps in
  let offsets := _frame_offsets self (seg_end seg - seg_start seg) in
  let step := (py_max (seg_end seg - seg_start seg - (1 # 1000)) 0
               / inject_Z (frames_per_segment self))%Q in
  frames_base64 seg
    = map (fun t => _frame_to_base64 (clip_frame_jpeg clip (seg_start seg + t)%Q)) offsets
  ∧ Z.of_nat (length offsets) = Z.max 0 fps
  ∧ (∀ (k : nat) t, offsets !! k = Some t →
       (t == inject_Z (Z.of_nat k) * step
        ∧ 0 <= t ∧ t < seg_end seg - seg_start seg ∧ t < inject_Z S)%Q)
  ∧ (1 <= fps → ∃ t0, offsets !! 0%nat = Some t0 ∧ (t0 == 0)%Q)
  ∧ (fps <= 0 → offsets = [] ∧ frames_base64 seg = []).
Proof.
  intros HS HD Hv Hd Hrun Hi self offsets step.
  rewrite (segment_run_inv S fps D w w' video_path temp_dir clip _ HS HD Hv Hd Hrun) in Hi.
  apply lookup_segment_values in Hi as [Hlt ->].
  assert (Hidx : Z.of_nat i < Qceiling (D / inject_Z S)) by lia.
  pose proof (subclip_duration_bounds S D i HS HD Hidx) as [Hpos Hle].
  subst offsets step self. cbn [seg_start seg_end frames_base64 segment_value].
  unfold segment_start, segment_end. rewrite (init_segment_duration S fps HS).
  set (d := (py_min (inject_Z ((Z.of_nat i + 1) * S)) D - inject_Z (Z.of_nat i * S))%Q) in *.
  split; [reflexivity|].
  unfold _frame_offsets. cbn [frames_per_segment VideoSegmenter_init].
  assert (Hd0 : Qle_bool d 0 = false).
  { destruct (Qle_bool d 0) eqn:E; [|reflexivity]. apply Qle_bool_iff in E. lra. }
  rewrite Hd0, orb_false_r.
  destruct (Z.leb_spec (Z.max 0 fps) 0) as [Hz|Hz].
  - split; [cbn [length]; lia|]. split; [intros k t Hk; discriminate|].
    split; [intros; lia|]. intros _. split; reflexivity.
  - pose proof (py_max_zero_bounds d Hpos) as [Hstop0 Hstop].
    split; [rewrite length_linspace_open; lia|]. split; [|split].
    + intros k t Hk. apply linspace_open_lookup in Hk as [Hk ->].
      destruct (scaled_step_bounds _ _ k Hstop0 Hk) as (_ & Hlo & Hhi).
      assert (Hsame : ((py_max (d - (1 # 1000)) 0 - 0) / inject_Z (Z.max 0 fps)
                       == py_max (d - (1 # 1000)) 0 / inject_Z (Z.max 0 fps))%Q).
      { unfold Qdiv. ring. }
      rewrite Hsame. split; [ring|]. repeat split; lra.
    + intros _. unfold linspace_open.
      replace (Z.to_nat (Z.max 0 fps)) with (Datatypes.S (Z.to_nat (Z.max 0 fps) - 1)) by lia.
      simpl. eexists; split; [reflexivity|]. ring.
    + intros Hneg. lia.
Qed.

Lemma keyframe_offsets_sampling_witness :
  frames_base64 Sample.segment_2
    = map (fun t => _frame_to_base64
                      (clip_frame_jpeg Sample.clip_65 (seg_start Sample.segment_2 + t)%Q))
          (_frame_offsets (VideoSegmenter_init 30 2)
             (seg_end Sample.segment_2 - seg_start Sample.segment_2))
  ∧ Z.of_nat (length (_frame_offsets (VideoSegmenter_init 30 2)
                        (seg_end Sample.segment_2 - seg_start Sample.segment_2)))
    = Z.max 0 2
  ∧ (∀ (k : nat) t,
       _frame_offsets (VideoSegmenter_init 30 2)
         (seg_end Sample.segment_2 - seg_start Sample.segment_2) !! k = Some t →
       (t == inject_Z (Z.of_nat k)
             * (py_max (seg_end Sample.segment_2 - seg_start Sample.segment_2 - (1 # 1000)) 0
                / inject_Z (frames_per_segment (VideoSegmenter_init 30 2)))
        ∧ 0 <= t ∧ t < seg_end Sample.segment_2 - seg_start Sample.segment_2
        ∧ t < inject_Z 30)%Q)
  ∧ (1 <= 2 → ∃ t0,
       _frame_offsets (VideoSegmenter_init 30 2)
         (seg_end Sample.segment_2 - seg_start Sample.segment_2) !! 0%nat = Some t0
       ∧ (t0 == 0)%Q)
  ∧ (2 <= 0 →
       _frame_offsets (VideoSegmenter_init 30 2)
         (seg_end Sample.segment_2 - seg_start Sample.segment_2) = []
       ∧ frames_base64 Sample.segment_2 = []).
Proof.
  apply (keyframe_offsets_sampling 30 2 65 Sample.world
           (fst (segment (VideoSegmenter_init 30 2) "talk.mp4" Sample.world))
           "talk.mp4" "/tmp/videorag_segments_0" Sample.clip_65
           (map (segment_value (VideoSegmenter_init 30 2) Sample.clip_65 65
                               "/tmp/videorag_segments_0") (seq 0 3))
           2%nat).
  - reflexivity.
  - reflexivity.
  - vm_compute. reflexivity.
  - reflexivity.
  - vm_compute. reflexivity.
  - vm_compute. reflexivity.
Defined.

(** ** Segment identity *)

Lemma pretty_N_char_is_digit (x : N) : is_digit (pretty_N_char x) = true.
Proof. unfold pretty_N_char. repeat case_match; reflexivity. Qed.

Lemma pretty_N_char_nonzero (x : N) : (0 < x)%N -> pretty_N_char x ≠ "0"%char.
Proof. unfold pretty_N_char. intros Hx. repeat case_match; (lia || discriminate). Qed.

Lemma pretty_N_go_digits (x : N) : ∀ s, digits_only s = true → digits_only (pretty_N_go x s) = true.
Proof.
  induction (N.lt_wf_0 x) as [x _ IH]. intros s Hs.
  destruct (N.eq_dec x 0%N) as [->|Hx]; [exact Hs|].
  rewrite pretty_N_go_step by lia.
  apply IH; [apply N.div_lt; lia|].
  simpl. rewrite pretty_N_char_is_digit. exact Hs.
Qed.

Lemma pretty_N_digits (x : N) : digits_only (pretty x) = true.
Proof.
  unfold pretty, pretty_N. destruct (decide (x = 0%N)); [reflexivity|].
  apply pretty_N_go_digits. reflexivity.
Qed.

Lemma pretty_N_go_head (x : N) :
  (0 < x)%N → ∀ s, ∃ c rest, pretty_N_go x s = String c rest ∧ c ≠ "0"%char.
Proof.
  induction (N.lt_wf_0 x) as [x _ IH]. intros Hx s.
  rewrite pretty_N_go_step by exact Hx.
  destruct (N.eq_dec (x `div` 10)%N 0%N) as [Hq|Hq].
  - rewrite Hq. exists (pretty_N_char (x `mod` 10)%N), s. split; [reflexivity|].
    apply pretty_N_char_nonzero.
    apply N.div_small_iff in Hq; [|done]. rewrite N.mod_small by exact Hq. exact Hx.
  - apply IH; [apply N.div_lt; lia|apply N.neq_0_lt_0; exact Hq].
Qed.

Lemma pretty_N_head (x : N) :
  (0 < x)%N → ∃ c rest, pretty x = String c rest ∧ c ≠ "0"%char.
Proof.
  intros Hx. unfold pretty, pretty_N. destruct (decide (x = 0%N)); [lia|].
  apply pretty_N_go_head. exact Hx.
Qed.

Lemma pretty_Z_nonneg_digits (z : Z) : 0 <= z → digits_only (pretty z) = true.
Proof.
  intros Hz. destruct z as [|p|p]; [reflexivity| |lia].
  apply (pretty_N_digits (N.pos p)).
Qed.

Lemma split_at_dash (a a' r r' : string) :
  digits_only a = true → digits_only a' = true →
  a +:+ String "-" r = a' +:+ String "-" r' → a = a' ∧ r = r'.
Proof.
  revert a'. induction a as [|c a IH]; intros [|c' a'] Ha Ha' Heq; simpl in *.
  - injection Heq as ->. split; reflexivity.
  - injection Heq as <- _. discriminate Ha'.
  - injection Heq as -> _. discriminate Ha.
  - injection Heq as -> Heq.
    apply andb_true_iff in Ha as [_ Ha]. apply andb_true_iff in Ha' as [_ Ha'].
    destruct (IH a' Ha Ha' Heq) as [-> ->]. split; reflexivity.
Qed.

Lemma zeros_then_nonzero (a b : nat) (c c' : ascii) (r r' : string) :
  c ≠ "0"%char → c' ≠ "0"%char →
  zeros a +:+ String c r = zeros b +:+ String c' r' → a = b.
Proof.
  intros Hc Hc'. revert b. induction a as [|a IH]; intros [|b] Heq; simpl in Heq.
  - reflexivity.
  - injection Heq as -> _. contradiction.
  - injection Heq as <- _. contradiction.
  - injection Heq as Heq. f_equal. apply IH. exact Heq.
Qed.

Lemma zero_pad_pretty_inj (i j : N) :
  zero_pad 4 (pretty i) = zero_pad 4 (pretty j) → i = j.
Proof.
  unfold zero_pad. fold (zeros (4 - String.length (pretty i))).
  fold (zeros (4 - String.length (pretty j))).
  destruct (N.eq_dec i 0%N) as [->|Hi]; destruct (N.eq_dec j 0%N) as [->|Hj]; [reflexivity| | |].
  - destruct (pretty_N_head j ltac:(lia)) as (c & r & -> & Hc). simpl String.length.
    change (pretty 0%N) with "0". simpl.
    destruct (String.length r) as [|[|[|n]]]; simpl; intros Heq;
      repeat (injection Heq as <- Heq || injection Heq as <- ); try contradiction.
    all: try (injection Heq as <-; contradiction).
  - destruct (pretty_N_head i ltac:(lia)) as (c & r & -> & Hc). simpl String.length.
    change (pretty 0%N) with "0". simpl.
    destruct (String.length r) as [|[|[|n]]]; simpl; intros Heq;
      repeat (injection Heq as -> Heq || injection Heq as -> ); try contradiction.
    all: try (injection Heq as ->; contradiction).
  - destruct (pretty_N_head i ltac:(lia)) as (c & r & Hpi & Hc).
    destruct (pretty_N_head j ltac:(lia)) as (c' & r' & Hpj & Hc').
    intros Heq. apply (inj pretty).
    rewrite Hpi, Hpj in Heq |- *.
    pose proof (zeros_then_nonzero _ _ _ _ _ _ Hc Hc' Heq) as Hlen.
    rewrite Hlen in Heq. revert Heq. generalize (zeros (4 - String.length (String c' r'))).
    intros z. induction z as [|d z IH]; simpl; intros Heq; [exact Heq|].
    injection Heq as Heq. apply IH. exact Heq.
Qed.

Lemma zero_pad_digits (width : nat) (s : string) :
  digits_only s = true → digits_only (zero_pad width s) = true.
Proof.
  intros Hs. unfold zero_pad.
  induction (width - String.length s)%nat as [|n IH]; simpl; [exact Hs|exact IH].
Qed.

Lemma format_04d_of_nat (i : nat) :
  format_04d (Z.of_nat i) = zero_pad 4 (pretty (N.of_nat i)).
Proof.
  unfold format_04d. destruct (Z.ltb_spec (Z.of_nat i) 0) as [H|_]; [lia|].
  replace (Z.abs_N (Z.of_nat i)) with (N.of_nat i) by lia. reflexivity.
Qed.

(** The identity determines the index and the two millisecond values. *)
Lemma segment_id_of_inj (i j : nat) (a b : Z) (e f : Number) :
  0 <= a → 0 <= b →
  segment_id_of i a e = segment_id_of j b f →
  i = j ∧ a = b ∧ int_times_1000 e = int_times_1000 f.
Proof.
  intros Ha Hb. unfold segment_id_of. rewrite !format_04d_of_nat.
  intros Heq. simpl in Heq. injection Heq as Heq.
  apply split_at_dash in Heq as [Hidx Heq];
    [|apply zero_pad_digits, pretty_N_digits..].
  apply split_at_dash in Heq as [Hstart Hend];
    [|apply pretty_Z_nonneg_digits; lia..].
  apply zero_pad_pretty_inj in Hidx. apply (inj pretty) in Hstart, Hend.
  repeat split; [lia|lia|exact Hend].
Qed.

(** ** Binary floating point *)

Lemma rint_error (x : Q) :
  (x - (1 # 2) <= inject_Z (rint x) <= x + (1 # 2))%Q.
Proof.
  unfold rint.
  pose proof (Qfloor_le x) as Hlo. pose proof (Qlt_floor x) as Hhi.
  rewrite inject_Z_plus in Hhi. change (inject_Z 1) with 1%Q in Hhi.
  destruct (Qcompare (x - inject_Z (Qfloor x)) (1 # 2)) eqn:Hc.
  - apply Qeq_alt in Hc. destruct (Z.even (Qfloor x));
      rewrite ?inject_Z_plus; change (inject_Z 1) with 1%Q; lra.
  - apply Qlt_alt in Hc. lra.
  - apply Qgt_alt in Hc. rewrite inject_Z_plus. change (inject_Z 1) with 1%Q. lra.
Qed.

Lemma rint_nonneg (x : Q) : (0 <= x)%Q → 0 <= rint x.
Proof.
  intros Hx. unfold rint.
  assert (0 <= Qfloor x) by (change 0 with (Qfloor 0); apply Qfloor_resp_le, Hx).
  repeat case_match; lia.
Qed.

Lemma Qpower2_pos (e : Z) : (0 < 2 ^ e)%Q.
Proof. apply Qpower_0_lt. reflexivity. Qed.

Lemma Qpower2_succ (e : Z) : (2 ^ (e + 1) == 2 * 2 ^ e)%Q.
Proof. rewrite Qpower_plus by discriminate. change (2 ^ 1)%Q with 2%Q. ring. Qed.

Lemma Z_log2_Q (n : Z) :
  0 < n → (2 ^ Z.log2 n <= inject_Z n < 2 * 2 ^ Z.log2 n)%Q.
Proof.
  intros Hn. destruct (Z.log2_spec n Hn) as [Hlo Hhi].
  pose proof (Z.log2_nonneg n) as Ha.
  rewrite Z.pow_succ_r in Hhi by exact Ha.
  change 2%Q with (inject_Z 2). rewrite <- Zpower_Qpower by exact Ha.
  rewrite <- inject_Z_mult. rewrite <- Zle_Qle, <- Zlt_Qlt. split; assumption.
Qed.

Lemma ilog2_spec (x : Q) : (0 < x)%Q → (2 ^ ilog2 x <= x < 2 * 2 ^ ilog2 x)%Q.
Proof.
  intros Hx. destruct x as [n d].
  assert (Hn : 0 < n) by (unfold Qlt in Hx; simpl in Hx; lia).
  pose proof (Z_log2_Q n Hn) as [HA1 HA2].
  pose proof (Z_log2_Q (Z.pos d) eq_refl) as [HB1 HB2].
  unfold ilog2. cbn [Qnum Qden].
  set (a := Z.log2 n) in *. set (b := Z.log2 (Z.pos d)) in *.
  assert (HP : (2 ^ (a - b) * 2 ^ b == 2 ^ a)%Q).
  { rewrite <- Qpower_plus by discriminate. replace (a - b + b) with a by lia. reflexivity. }
  assert (HP' : (2 * 2 ^ (a - b - 1) == 2 ^ (a - b))%Q).
  { rewrite <- Qpower2_succ. replace (a - b - 1 + 1) with (a - b) by lia. reflexivity. }
  pose proof (Qpower2_pos (a - b)) as HPpos. pose proof (Qpower2_pos (a - b - 1)) as HP'pos.
  pose proof (Qpower2_pos b) as HBpos.
  assert (Hxd : (n # d) * inject_Z (Z.pos d) == inject_Z n).
  { rewrite (Qmake_Qdiv n d). field. discriminate. }
  revert HA1 HA2 HB1 HB2 HP HP' HPpos HP'pos HBpos Hxd Hx.
  generalize (2 ^ a)%Q (2 ^ b)%Q (inject_Z n) (inject_Z (Z.pos d)) (n # d).
  intros A B N D x HA1 HA2 HB1 HB2 HP HP' HPpos HP'pos HBpos Hxd Hx.
  destruct (Qle_bool (2 ^ (a - b)) x) eqn:Hle.
  - apply Qle_bool_iff in Hle. split; [exact Hle|].
    revert Hle HP HP' HPpos HP'pos. generalize (2 ^ (a - b))%Q. intros P Hle HP _ HPpos _.
    apply Qnot_le_lt. intros Hge. nra.
  - assert (Hlt : (x < 2 ^ (a - b))%Q).
    { apply Qnot_le_lt. intros Hge. apply Qle_bool_iff in Hge. congruence. }
    clear Hle. revert Hlt HP HP' HPpos HP'pos.
    generalize (2 ^ (a - b))%Q (2 ^ (a - b - 1))%Q. intros P P' Hlt HP HP' HPpos HP'pos.
    split; [|lra].
    apply Qnot_lt_le. intros Hge. nra.
Qed.

(** The relative error of rounding to a float is at most [2 ^ -53], but
    for an absolute [2 ^ -1075] below the normal range. *)
Lemma round64_bounds (x : Q) :
  (0 <= x)%Q →
  (0 <= round64 x)%Q
  ∧ (x - (x * (1 # 9007199254740992) + 2 ^ (-1075)) <= round64 x
     <= x + (x * (1 # 9007199254740992) + 2 ^ (-1075)))%Q.
Proof.
  intros Hx. pose proof (Qpower2_pos (-1075)) as Ht.
  destruct x as [n d]. unfold round64. cbn [Qnum].
  destruct n as [|p|p].
  - assert (H0 : (0 # d) == 0) by reflexivity. split; [apply Qle_refl|].
    rewrite H0. lra.
  - change (Qabs (Z.pos p # d)) with (Z.pos p # d).
    assert (Hpos : (0 < Z.pos p # d)%Q) by reflexivity.
    pose proof (ilog2_spec _ Hpos) as [Hlog _].
    set (x := Z.pos p # d) in *. set (l := ilog2 x) in *.
    set (e := Z.max (l - 52) (-1074)).
    pose proof (Qpower2_pos e) as HE.
    assert (HEsmall : (2 ^ e <= x * (2 # 9007199254740992) + 2 * 2 ^ (-1075))%Q).
    { destruct (Z.max_spec (l - 52) (-1074)) as [[_ He]|[_ He]]; fold e in He; rewrite He.
      - change (-1074) with (-1075 + 1). rewrite Qpower2_succ.
        assert (0 <= x * (2 # 9007199254740992))%Q by nra. lra.
      - assert (H52 : (2 ^ (l - 52) * 4503599627370496 == 2 ^ l)%Q).
        { change 4503599627370496%Q with (2 ^ 52)%Q.
          rewrite <- Qpower_plus by discriminate.
          replace (l - 52 + 52) with l by lia. reflexivity. }
        revert H52 Hlog. generalize (2 ^ l)%Q (2 ^ (l - 52))%Q. intros L E' H52 Hlog. lra. }
    rewrite Qred_correct.
    pose proof (rint_error (x / 2 ^ e)) as [Hr1 Hr2].
    assert (Hy : (0 <= x / 2 ^ e)%Q).
    { apply Qle_shift_div_l; [exact HE|]. lra. }
    pose proof (rint_nonneg _ Hy) as Hr0. rewrite Zle_Qle in Hr0.
    change (inject_Z 0) with 0%Q in Hr0.
    assert (Hxy : (x / 2 ^ e) * 2 ^ e == x) by (field; lra).
    revert Hr1 Hr2 Hr0 Hxy HE HEsmall Ht.
    generalize (inject_Z (rint (x / 2 ^ e))) (x / 2 ^ e)%Q (2 ^ e)%Q (2 ^ (-1075))%Q.
    intros r y E t Hr1 Hr2 Hr0 Hxy HE HEsmall Ht.
    split; [nra|]. split; nra.
  - exfalso. revert Hx. unfold Qle. simpl. lia.
Qed.

(** The float product [D * 1000] is within a thousandth of the exact
    product for a duration of up to [2 ^ 32] seconds. *)
Lemma float_mul_1000_bounds (D : Q) :
  (0 <= D <= 4294967296)%Q →
  (0 <= float_mul D 1000)%Q
  ∧ (D * 1000 - (1 # 1000) <= float_mul D 1000 <= D * 1000 + (1 # 1000))%Q.
Proof.
  intros [HD0 HD1]. unfold float_mul.
  assert (H1000 : round64 1000 = 1000%Q) by (vm_compute; reflexivity).
  rewrite H1000.
  assert (Ht : (2 ^ (-1075) <= 1 # 1000000000000000000)%Q).
  { apply Qle_bool_iff. vm_compute. reflexivity. }
  destruct (round64_bounds D HD0) as (Hr0 & Hr1 & Hr2).
  assert (Hp : (0 <= round64 D * 1000)%Q) by lra.
  destruct (round64_bounds _ Hp) as (Hf0 & Hf1 & Hf2).
  revert Ht Hr0 Hr1 Hr2 Hf0 Hf1 Hf2.
  generalize (round64 (round64 D * 1000)) (round64 D) (2 ^ (-1075))%Q.
  intros f r t Ht Hr0 Hr1 Hr2 Hf0 Hf1 Hf2.
  split; [exact Hf0|]. split; lra.
Qed.

Lemma py_int_floor (x : Q) : (0 <= x)%Q → py_int x = Qfloor x.
Proof.
  destruct x as [n d]. unfold Qle, py_int, Qfloor. simpl. intros Hn.
  apply Z.quot_div_nonneg; lia.
Qed.

(** Truncating the float product gives the milliseconds of [D], or one
    less when [D] is a whole number of milliseconds. *)
Lemma float_ms_bounds (D : Q) :
  (0 <= D <= 4294967296)%Q →
  (D * 1000 - 1 - (1 # 1000) < inject_Z (py_int (float_mul D 1000)) <= D * 1000 + (1 # 1000))%Q.
Proof.
  intros HD. destruct (float_mul_1000_bounds D HD) as (Hf0 & Hf1 & Hf2).
  rewrite (py_int_floor _ Hf0).
  pose proof (Qfloor_le (float_mul D 1000)) as Hlo.
  pose proof (Qlt_floor (float_mul D 1000)) as Hhi.
  rewrite inject_Z_plus in Hhi. change (inject_Z 1) with 1%Q in Hhi.
  split; lra.
Qed.

Lemma float_ms_whole (D : Q) (m : Z) :
  (0 <= D <= 4294967296)%Q → (D * 1000 == inject_Z m)%Q →
  py_int (float_mul D 1000) = m ∨ py_int (float_mul D 1000) = m - 1.
Proof.
  intros HD Hm. destruct (float_ms_bounds D HD) as [Hlo Hhi].
  rewrite Hm in Hlo, Hhi.
  assert (H1 : (inject_Z (py_int (float_mul D 1000)) < inject_Z (m + 1))%Q).
  { rewrite inject_Z_plus. change (inject_Z 1) with 1%Q. lra. }
  assert (H2 : (inject_Z (m - 2) < inject_Z (py_int (float_mul D 1000)))%Q).
  { unfold Z.sub. rewrite inject_Z_plus, inject_Z_opp. change (inject_Z 2) with 2%Q. lra. }
  rewrite <- Zlt_Qlt in H1, H2. lia.
Qed.

(** The value of [end] and its milliseconds in the identity, by the side
    of [min] that was taken. *)
Lemma segment_end_number_value (self : VideoSegmenter) (duration : Q) (index : nat) :
  number_value (segment_end_number self duration index) = segment_end self duration index.
Proof.
  unfold segment_end_number, segment_end, py_min.
  destruct (Qlt_le_dec duration _); reflexivity.
Qed.

Lemma segments_need_duration (self : VideoSegmenter) (D : Q) (i : nat) :
  0 < segment_duration self → (i < Z.to_nat (total_segments self D))%nat → (0 < D)%Q.
Proof.
  intros HS Hi. apply Qnot_le_lt. intros HD.
  rewrite (total_segments_nonpositive self D HS HD) in Hi. lia.
Qed.

(** C9, as stated, fails: the source lasting 2.01 seconds, cut every 30
    seconds, has one segment, named [seg-0000-0-2009], while its end in
    milliseconds is 2010, rounded or not: the float product [2.01 * 1000]
    lies just below 2010 and [int] drops the fraction. *)
Lemma segment_id_end_is_not_rounded :
  ∃ w' temp_dir seg,
    segment (VideoSegmenter_init 30 0) "short.mp4" Sample.short_world
    = (w', Ok ([seg], temp_dir))
    ∧ seg_end seg = (201 # 100)%Q
    ∧ seg_id seg = "seg-0000-0-2009"
    ∧ spec_segment_id 0 (seg_start seg) (seg_end seg) = "seg-0000-0-2010"
    ∧ seg_id seg ≠ spec_segment_id 0 (seg_start seg) (seg_end seg).
Proof.
  eexists _, _, _. split; [vm_compute; reflexivity|].
  split; [reflexivity|]. split; [vm_compute; reflexivity|].
  split; [vm_compute; reflexivity|]. vm_compute. discriminate.
Qed.

(** C9, amended: two runs over the same source with the same parameters,
    in whatever state of the disk, give the same identities in the same
    order.  The identity of segment [i] is the text [seg-], the index in
    at least four digits, the start in milliseconds and a number for the
    end, joined by dashes, and no other index or numbers give the same
    text.  The number for the end is the end in milliseconds when the
    segment ends at a multiple of the segment duration.  When it ends with
    the source, that number is the float product of the duration and 1000
    with its fraction dropped: for a duration of up to [2 ^ 32] seconds it
    is less than a thousandth above the end in milliseconds and less than
    one and a thousandth below, so for a duration of whole milliseconds it
    is that number of milliseconds or one less. *)
Theorem segment_id_encoding_and_repeatable (S fps : Z) (clip : Clip)
    (w1 w2 : World) (path1 path2 : string) :
  w_videos w1 !! path1 = Some clip ->
  w_videos w2 !! path2 = Some clip ->
  ∃ w1' w2' segments1 segments2 dir1 dir2,
    segment (VideoSegmenter_init S fps) path1 w1 = (w1', Ok (segments1, dir1))
    ∧ segment (VideoSegmenter_init S fps) path2 w2 = (w2', Ok (segments2, dir2))
    ∧ map seg_id segments1 = map seg_id segments2
    ∧ ∀ (i : nat) seg, segments1 !! i = Some seg →
        ∃ start_ms end_ms : Z,
          seg_id seg = "seg-" +:+ format_04d (Z.of_nat i)
                       +:+ "-" +:+ str_int start_ms +:+ "-" +:+ str_int end_ms
          ∧ (inject_Z start_ms == seg_start seg * 1000)%Q
          ∧ ((inject_Z ((Z.of_nat i + 1) * segment_duration (VideoSegmenter_init S fps))
              <= duration_or_zero (clip_duration clip))%Q →
             (inject_Z end_ms == seg_end seg * 1000)%Q)
          ∧ ((duration_or_zero (clip_duration clip)
              < inject_Z ((Z.of_nat i + 1) * segment_duration (VideoSegmenter_init S fps)))%Q →
             seg_end seg = duration_or_zero (clip_duration clip)
             ∧ end_ms = py_int (float_mul (seg_end seg) 1000)
             ∧ ((seg_end seg <= 4294967296)%Q →
                (seg_end seg * 1000 - 1 - (1 # 1000) < inject_Z end_ms
                 <= seg_end seg * 1000 + (1 # 1000))%Q
                ∧ ∀ m : Z, (seg_end seg * 1000 == inject_Z m)%Q →
                           end_ms = m ∨ end_ms = m - 1))
          ∧ ∀ (j : nat) (start : Z) (end_ : Number),
              0 <= start → seg_id seg = segment_id_of j start end_ →
              j = i ∧ start * 1000 = start_ms ∧ int_times_1000 end_ = end_ms.
Proof.
  intros H1 H2.
  destruct (segment_returns (VideoSegmenter_init S fps) path1 clip w1 H1)
    as (w1' & dir1 & Hrun1).
  destruct (segment_returns (VideoSegmenter_init S fps) path2 clip w2 H2)
    as (w2' & dir2 & Hrun2).
  eexists w1', w2', _, _, dir1, dir2.
  split; [exact Hrun1|]. split; [exact Hrun2|]. split.
  - rewrite !map_map. reflexivity.
  - intros i seg Hi. apply lookup_segment_values in Hi as [Hlt ->].
    pose proof (init_segment_duration_pos S fps) as HS.
    pose proof (segments_need_duration _ _ _ HS Hlt) as HD.
    set (self := VideoSegmenter_init S fps) in *.
    set (D := duration_or_zero (clip_duration clip)) in *.
    exists (segment_start self i * 1000), (int_times_1000 (segment_end_number self D i)).
    cbn [seg_id seg_start seg_end segment_value].
    split; [reflexivity|].
    split; [rewrite inject_Z_mult; reflexivity|].
    unfold segment_end_number, segment_end, py_min.
    destruct (Qlt_le_dec D (inject_Z ((Z.of_nat i + 1) * segment_duration self)))
      as [Hshort|Hfull].
    + split; [intros Hle; lra|]. split.
      * intros _. split; [reflexivity|]. split; [reflexivity|].
        intros Hmax. assert (HD' : (0 <= D <= 4294967296)%Q) by lra.
        split; [exact (float_ms_bounds D HD')|].
        intros m Hm. exact (float_ms_whole D m HD' Hm).
      * intros j start end_ Hstart Hid. symmetry in Hid.
        apply segment_id_of_inj in Hid as (-> & -> & Hend); [auto|exact Hstart|].
        unfold segment_start. nia.
    + split; [intros _; cbn [int_times_1000]; rewrite inject_Z_mult; reflexivity|].
      split; [intros Hlt'; lra|].
      intros j start end_ Hstart Hid. symmetry in Hid.
      apply segment_id_of_inj in Hid as (-> & -> & Hend); [auto|exact Hstart|].
      unfold segment_start. nia.
Qed.

Lemma segment_id_encoding_and_repeatable_witness :
  ∃ w1' w2' segments1 segments2 dir1 dir2,
    segment (VideoSegmenter_init 30 2) "short.mp4" Sample.short_world
    = (w1', Ok (segments1, dir1))
    ∧ segment (VideoSegmenter_init 30 2) "short.mp4" (tick Sample.short_world)
      = (w2', Ok (segments2, dir2))
    ∧ map seg_id segments1 = map seg_id segments2
    ∧ ∀ (i : nat) seg, segments1 !! i = Some seg →
        ∃ start_ms end_ms : Z,
          seg_id seg = "seg-" +:+ format_04d (Z.of_nat i)
                       +:+ "-" +:+ str_int start_ms +:+ "-" +:+ str_int end_ms
          ∧ (inject_Z start_ms == seg_start seg * 1000)%Q
          ∧ ((inject_Z ((Z.of_nat i + 1) * segment_duration (VideoSegmenter_init 30 2))
              <= duration_or_zero (clip_duration Sample.clip_2_01))%Q →
             (inject_Z end_ms == seg_end seg * 1000)%Q)
          ∧ ((duration_or_zero (clip_duration Sample.clip_2_01)
              < inject_Z ((Z.of_nat i + 1) * segment_duration (VideoSegmenter_init 30 2)))%Q →
             seg_end seg = duration_or_zero (clip_duration Sample.clip_2_01)
             ∧ end_ms = py_int (float_mul (seg_end seg) 1000)
             ∧ ((seg_end seg <= 4294967296)%Q →
                (seg_end seg * 1000 - 1 - (1 # 1000) < inject_Z end_ms
                 <= seg_end seg * 1000 + (1 # 1000))%Q
                ∧ ∀ m : Z, (seg_end seg * 1000 == inject_Z m)%Q →
                           end_ms = m ∨ end_ms = m - 1))
          ∧ ∀ (j : nat) (start : Z) (end_ : Number),
              0 <= start → seg_id seg = segment_id_of j start end_ →
              j = i ∧ start * 1000 = start_ms ∧ int_times_1000 end_ = end_ms.
Proof.
  apply (segment_id_encoding_and_repeatable 30 2 Sample.clip_2_01
           Sample.short_world (tick Sample.short_world) "short.mp4" "short.mp4").
  - vm_compute. reflexivity.
  - vm_compute. reflexivity.
Defined.

(** ** Unreadable and empty sources *)

(** C6, as stated, fails: a source that opens with duration 0 is segmented
    without any error, into no segment at all. *)
Lemma segment_zero_duration_returns :
  w_videos Sample.world !! "empty.mp4" = Some Sample.clip_empty
  ∧ clip_duration Sample.clip_empty = Some 0%Q
  ∧ ∃ w', segment (VideoSegmenter_init 30 6) "empty.mp4" Sample.world
          = (w', Ok ([], "/tmp/videorag_segments_0")).
Proof.
  split; [vm_compute; reflexivity|]. split; [reflexivity|].
  eexists. vm_compute. reflexivity.
Qed.

(** C6, amended: a source the decoding library cannot open makes
    [segment] raise the library's own error; a source that opens with no
    duration, or a duration of zero or less, makes [segment] return an
    empty list of segments and its temporary directory. *)
Theorem segment_unreadable_or_empty (S fps : Z) (video_path : string) (w : World) :
  match w_videos w !! video_path with
  | None =>
      ∃ w' e, segment (VideoSegmenter_init S fps) video_path w = (w', Raise e)
              ∧ exc_class e = "OSError"
  | Some clip =>
      (clip_duration clip = None ∨ ∃ q, clip_duration clip = Some q ∧ (q <= 0)%Q) →
      ∃ w' temp_dir, segment (VideoSegmenter_init S fps) video_path w = (w', Ok ([], temp_dir))
  end.
Proof.
  destruct (w_videos w !! video_path) as [clip|] eqn:Hv.
  - intros Hd.
    destruct (segment_returns (VideoSegmenter_init S fps) video_path clip w Hv)
      as (w' & temp_dir & Hrun).
    rewrite total_segments_nonpositive in Hrun.
    + eauto.
    + apply init_segment_duration_pos.
    + apply duration_or_zero_nonpositive, Hd.
  - unfold segment, bind, mkdtemp, VideoFileClip. simpl. rewrite Hv.
    eexists _, _. split; reflexivity.
Qed.

(** ** Transcription *)

(** C5: when the audio handle is [None], or is a path that does not
    exist, [transcribe_path] returns the empty string; it raises nothing
    and calls no service. *)
Theorem transcribe_missing_audio_is_empty (R : Remote) (audio : option string) (w : World) :
  (audio = None ∨ ∃ p, audio = Some p ∧ p ∉ w_paths w) →
  transcribe_path R audio w = (w, Ok "").
Proof.
  intros [-> | (p & -> & Hp)]; [reflexivity|].
  unfold transcribe_path, bind, path_exists.
  rewrite bool_decide_eq_false_2 by exact Hp. reflexivity.
Qed.

Lemma transcribe_missing_audio_is_empty_witness :
  transcribe_path Sample.services (Some "/tmp/gone.mp3") Sample.world
  = (Sample.world, Ok "").
Proof.
  apply (transcribe_missing_audio_is_empty Sample.services (Some "/tmp/gone.mp3")
           Sample.world).
  right. exists "/tmp/gone.mp3". split; [reflexivity|]. vm_compute. discriminate.
Defined.

(** The result of a transcription is a string in every case: an absent
    or empty text of the response becomes the empty string. *)
Lemma transcribe_present_audio (R : Remote) (p : string) (w : World) :
  p ∈ w_paths w →
  transcribe_path R (Some p) w
  = (tick w, match transcriptions_create R (w_tick w) p with
             | Ok (Some s) => Ok s
             | Ok None => Ok ""
             | Raise e => Raise e
             end).
Proof.
  intros Hp. unfold transcribe_path, bind, path_exists, remote_call, ret.
  rewrite bool_decide_eq_true_2 by exact Hp. simpl.
  destruct (transcriptions_create R (w_tick w) p) as [[s|]|e]; try reflexivity.
  destruct (String.eqb_spec s "") as [->|_]; reflexivity.
Qed.

(** ** Embedding input *)

Lemma all_str_of_strings (points : list string) : all_str (map PyStr points) = Ok points.
Proof. induction points as [|p rest IH]; simpl; [reflexivity|]. rewrite IH. reflexivity. Qed.

(** C8: for a summary object with text [text] and key points [points], a
    caption and a transcript, the embedding input is, in this order, the
    summary, the key points joined by line feeds, the caption and the
    transcript, each under its header [Summary:], [Key Points:],
    [Caption:], [Transcript:]. *)
Theorem embedding_input_layout (R : Remote) (summary : gmap string PyVal)
    (text : string) (points : list string) (caption transcript : string) :
  summary !! "summary" = Some (PyStr text) →
  summary !! "key_points" = Some (PyList (map PyStr points)) →
  build_embedding_input R (PyDict summary) caption transcript
  = Ok ("Summary:" +:+ nl +:+ text +:+ nl
        +:+ "Key Points:" +:+ nl +:+ join nl points +:+ nl
        +:+ "Caption:" +:+ nl +:+ caption +:+ nl
        +:+ "Transcript:" +:+ nl +:+ transcript).
Proof.
  intros Hs Hk. unfold build_embedding_input, py_get.
  rewrite Hk, Hs. cbn [default from_option id]. rewrite all_str_of_strings. reflexivity.
Qed.

Lemma embedding_input_layout_witness :
  build_embedding_input Sample.services
    (PyDict {[ "summary" := PyStr "greeting";
               "key_points" := PyList (map PyStr ["wave"; "smile"]) ]})
    "a person waves" "hello"
  = Ok ("Summary:" +:+ nl +:+ "greeting" +:+ nl
        +:+ "Key Points:" +:+ nl +:+ join nl ["wave"; "smile"] +:+ nl
        +:+ "Caption:" +:+ nl +:+ "a person waves" +:+ nl
        +:+ "Transcript:" +:+ nl +:+ "hello").
Proof.
  apply (embedding_input_layout Sample.services
           {[ "summary" := PyStr "greeting";
              "key_points" := PyList (map PyStr ["wave"; "smile"]) ]}
           "greeting" ["wave"; "smile"] "a person waves" "hello").
  - vm_compute. reflexivity.
  - vm_compute. reflexivity.
Defined.

(** ** Similarity search *)

Lemma match_row_similarity (sr : Q * IndexRecord) :
  match_row sr !! "similarity" = Some (PyFloat (fst sr)).
Proof. unfold match_row. apply lookup_insert_eq. Qed.

Lemma length_match_procedure R table p :
  (length (match_procedure R table p) <= Z.to_nat (match_count p))%nat.
Proof. unfold match_procedure. rewrite length_map, length_take. lia. Qed.

Lemma match_procedure_threshold R table p t :
  similarity_threshold p = Some t →
  Forall (row_similarity_at_least t) (match_procedure R table p).
Proof.
  intros Ht. unfold match_procedure. rewrite Ht.
  apply Forall_fmap, Forall_take.
  rewrite merge_sort_Permutation.
  apply Forall_forall. intros [s r] Hin.
  apply list_elem_of_filter in Hin as [Hs _]. simpl in Hs.
  exists s. split; [apply match_row_similarity|]. apply Qle_bool_iff, Hs.
Qed.

(** C4: for every session, query vector, [k >= 0] and optional threshold,
    [similarity_search] (over the store's match procedure) fails only when
    the remote call does, and otherwise returns at most [k] rows, each
    with a similarity of at least the threshold when one is supplied. *)
Theorem similarity_search_bounded (R : Remote) (session_id : string)
    (embedding : list Q) (k : Z) (threshold : option Q) (w : World) :
  0 <= k →
  match rpc_fails R (w_tick w) with
  | Some e => similarity_search R session_id embedding k threshold w = (tick w, Raise e)
  | None =>
      ∃ rows,
        similarity_search R session_id embedding k threshold w = (tick w, Ok rows)
        ∧ Z.of_nat (length rows) <= k
        ∧ ∀ t, threshold = Some t → Forall (row_similarity_at_least t) rows
  end.
Proof.
  intros Hk. unfold similarity_search, bind, _rpc_sync.
  set (payload := match threshold with
                  | Some t => mkPayload embedding k session_id (Some t)
                  | None => mkPayload embedding k session_id None
                  end).
  assert (Hcount : match_count payload = k) by (subst payload; destruct threshold; reflexivity).
  assert (Hthr : similarity_threshold payload = threshold)
    by (subst payload; destruct threshold; reflexivity).
  destruct (rpc_fails R (w_tick w)) as [e|]; [reflexivity|].
  pose proof (length_match_procedure R (w_table w) payload) as Hlen.
  assert (Hall : ∀ t, threshold = Some t →
                      Forall (row_similarity_at_least t)
                             (match_procedure R (w_table w) payload)).
  { intros t Ht. apply match_procedure_threshold. congruence. }
  destruct (match_procedure R (w_table w) payload) as [|row rows] eqn:Hrows.
  - exists []. split; [reflexivity|]. split; [simpl; lia|]. intros t _. constructor.
  - exists (row :: rows). split; [reflexivity|]. split; [lia|]. exact Hall.
Qed.

Lemma similarity_search_bounded_witness :
  match rpc_fails Sample.services (w_tick Sample.indexed_world) with
  | Some e =>
      similarity_search Sample.services "session-1" [1%Q; 0%Q] 2 (Some (1 # 4)%Q)
        Sample.indexed_world = (tick Sample.indexed_world, Raise e)
  | None =>
      ∃ rows,
        similarity_search Sample.services "session-1" [1%Q; 0%Q] 2 (Some (1 # 4)%Q)
          Sample.indexed_world = (tick Sample.indexed_world, Ok rows)
        ∧ Z.of_nat (length rows) <= 2
        ∧ ∀ t, Some (1 # 4)%Q = Some t → Forall (row_similarity_at_least t) rows
  end.
Proof.
  apply (similarity_search_bounded Sample.services "session-1" [1%Q; 0%Q] 2
           (Some (1 # 4)%Q) Sample.indexed_world).
  vm_compute. discriminate.
Defined.

(** Three stored records score 1, 0 and 1/2 against the query; with
    [k = 2] and threshold 1/4 the search returns the first and the third,
    in this order. *)
Example similarity_search_sample :
  snd (similarity_search Sample.services "session-1" [1%Q; 0%Q] 2 (Some (1 # 4)%Q)
         Sample.indexed_world)
  = Ok [ match_row (Sample.dot [1%Q; 0%Q] [1%Q; 0%Q], Sample.record "seg-a" [1%Q; 0%Q]);
         match_row (Sample.dot [1%Q; 0%Q] [(1 # 2)%Q; (1 # 2)%Q],
                    Sample.record "seg-c" [(1 # 2)%Q; (1 # 2)%Q]) ].
Proof. vm_compute. reflexivity. Qed.

(** ** Evidence assembly *)

(** C10, as stated, fails: a row without a [metadata] key whose top-level
    similarity is 0 yields an evidence whose similarity is that same 0,
    not [None]. *)
Lemma flat_match_reports_zero :
  absent_or_zero (Sample.flat_match_zero !! "similarity") = true
  ∧ Sample.flat_match_zero !! "metadata" = None
  ∧ ∃ ev, evidence_of_match Sample.flat_match_zero = Ok ev
          ∧ ev_similarity ev = PyFloat 0
          ∧ ev_similarity ev ≠ PyNone.
Proof.
  split; [vm_compute; reflexivity|]. split; [vm_compute; reflexivity|].
  eexists. split; [vm_compute; reflexivity|]. split; [reflexivity|discriminate].
Qed.

Lemma absent_or_zero_falsy (v : option PyVal) :
  absent_or_zero v = true → truthy (default PyNone v) = false.
Proof.
  destruct v as [[| | z | q | | |]|]; simpl; try discriminate; try reflexivity.
  - intros ->. reflexivity.
  - intros ->. reflexivity.
Qed.

(** C10, amended: for a match whose top-level similarity is absent or 0,
    the six projected fields and the similarity are read from the
    [metadata] dictionary when the match has one, a missing key giving
    [None]; when the match has no [metadata] key they are read from the
    match itself, so that the similarity is again the top-level one ([None]
    when absent, the 0 itself otherwise); a [metadata] value that is not
    a dictionary raises. *)
Theorem evidence_similarity_fallback (m : gmap string PyVal) :
  absent_or_zero (m !! "similarity") = true →
  match m !! "metadata" with
  | Some (PyDict payload) =>
      evidence_of_match m = Ok (projected payload (default PyNone (payload !! "similarity")))
  | None =>
      evidence_of_match m = Ok (projected m (default PyNone (m !! "similarity")))
  | Some _ => ∃ e, evidence_of_match m = Raise e
  end.
Proof.
  intros Hz. apply absent_or_zero_falsy in Hz.
  unfold evidence_of_match.
  destruct (m !! "metadata") as [[| | | | | |payload]|] eqn:Hmd;
    cbn [default from_option id py_get]; try (eexists; reflexivity).
  - rewrite Hz. reflexivity.
  - rewrite Hz. reflexivity.
Qed.

Lemma evidence_similarity_fallback_witness :
  match Sample.nested_match !! "metadata" with
  | Some (PyDict payload) =>
      evidence_of_match Sample.nested_match
      = Ok (projected payload (default PyNone (payload !! "similarity")))
  | None =>
      evidence_of_match Sample.nested_match
      = Ok (projected Sample.nested_match
                      (default PyNone (Sample.nested_match !! "similarity")))
  | Some _ => ∃ e, evidence_of_match Sample.nested_match = Raise e
  end.
Proof.
  apply (evidence_similarity_fallback Sample.nested_match).
  vm_compute. reflexivity.
Defined.

(** The evidence of the nested sample row takes its similarity from the
    payload. *)
Example nested_match_evidence :
  evidence_of_match Sample.nested_match
  = Ok (mkEvidence (PyStr "seg-0000-0-30000") PyNone PyNone PyNone PyNone PyNone
                   (PyFloat (1 # 2))).
Proof. vm_compute. reflexivity. Qed.

(** ** Ingestion *)

Lemma calls_only_refl w : calls_only w w.
Proof. repeat split. Qed.

Lemma calls_only_trans w1 w2 w3 : calls_only w1 w2 → calls_only w2 w3 → calls_only w1 w3.
Proof. intros (? & ? & ?) (? & ? & ?). repeat split; congruence. Qed.

Lemma store_kept_trans w1 w2 w3 : store_kept w1 w2 → store_kept w2 w3 → store_kept w1 w3.
Proof. intros (? & ?) (? & ?). split; congruence. Qed.

Create HintDb world discriminated.
#[local] Hint Resolve calls_only_refl calls_only_trans store_kept_trans : world.

(** A run that raised has no value. *)
Ltac no_value := let r := fresh "r" in let H := fresh "H" in intros r H; discriminate H.

Section Enrichment.

Variable R : Remote.
Variable session_id : string.

Lemma transcribe_path_calls_only audio w :
  calls_only w (fst (transcribe_path R audio w)).
Proof.
  unfold transcribe_path, bind, path_exists, remote_call, ret.
  destruct audio as [p|]; [|auto with world].
  destruct (bool_decide (p ∈ w_paths w)); simpl; [|auto with world].
  destruct (transcriptions_create R (w_tick w) p); repeat split.
Qed.

(** Enriching a segment only calls services; the record it returns is
    the one of the segment. *)
Lemma enrich_segment_effect seg w :
  calls_only w (fst (enrich_segment R session_id seg w))
  ∧ ∀ r, snd (enrich_segment R session_id seg w) = Ok r → record_of_segment session_id seg r.
Proof.
  pose proof (transcribe_path_calls_only (audio_path seg) w) as Ht.
  unfold enrich_segment, bind, remote_call, lift, ret.
  destruct (transcribe_path R (audio_path seg) w) as [w1 [transcript|e]]; simpl in Ht;
    [|split; [exact Ht|no_value]].
  destruct Ht as (? & ? & ?).
  repeat case_match; simplify_eq; simpl;
    (split; [repeat split; assumption | intros r' Hr; simplify_eq; repeat split]).
Qed.

Lemma map_m_enrich_effect segments w :
  calls_only w (fst (map_m (enrich_segment R session_id) segments w))
  ∧ ∀ records, snd (map_m (enrich_segment R session_id) segments w) = Ok records →
      Forall2 (record_of_segment session_id) segments records.
Proof.
  revert w. induction segments as [|seg rest IH]; intros w.
  - split; [auto with world|]. intros records [= <-]. constructor.
  - cbn [map_m]. unfold bind.
    destruct (enrich_segment_effect seg w) as [Hw Hr].
    destruct (enrich_segment R session_id seg w) as [w1 [r|e]]; simpl in Hw, Hr;
      [|split; [exact Hw|no_value]].
    destruct (IH w1) as [Hw' Hrs].
    destruct (map_m (enrich_segment R session_id) rest w1) as [w2 [rs|e]]; simpl in Hw', Hrs.
    + split; [eauto with world|].
      intros records [= <-]. constructor; [apply Hr; reflexivity|apply Hrs; reflexivity].
    + split; [eauto with world|no_value].
Qed.

End Enrichment.

Lemma segment_one_store_kept self clip duration temp_dir index w :
  store_kept w (fst (segment_one self clip duration temp_dir index w)).
Proof.
  unfold segment_one, bind, ret, write_audiofile.
  destruct (clip_has_audio clip); split; reflexivity.
Qed.

Lemma map_m_segment_one_store_kept self clip duration temp_dir indices w :
  store_kept w (fst (map_m (segment_one self clip duration temp_dir) indices w)).
Proof.
  revert w. induction indices as [|i rest IH]; intros w; [split; reflexivity|].
  cbn [map_m]. unfold bind.
  pose proof (segment_one_store_kept self clip duration temp_dir i w) as H1.
  destruct (segment_one self clip duration temp_dir i w) as [w1 [seg|e]]; simpl in H1;
    [|exact H1].
  pose proof (IH w1) as H2.
  destruct (map_m _ rest w1) as [w2 [segs|e]]; simpl in H2 |- *; eauto with world.
Qed.

Lemma segment_store_kept self video_path w :
  store_kept w (fst (segment self video_path w)).
Proof.
  unfold segment, bind, mkdtemp, VideoFileClip. simpl.
  destruct (w_videos w !! video_path) as [clip|]; [|split; reflexivity].
  match goal with |- context [map_m (segment_one _ _ _ ?d) ?l ?w0] =>
    pose proof (map_m_segment_one_store_kept self clip
                  (duration_or_zero (clip_duration clip)) d l w0) as H;
    destruct (map_m (segment_one self clip (duration_or_zero (clip_duration clip)) d) l w0)
      as [w2 [segs|e]] end;
    simpl in H |- *; exact H.
Qed.

Lemma rmtree_effect dir w :
  rmtree dir w = (set_paths (filter (fun p => under dir p = false)) w, Ok tt).
Proof. reflexivity. Qed.

Lemma under_self dir : under dir dir = true.
Proof. unfold under. rewrite String.eqb_refl. reflexivity. Qed.

Lemma foldl_upsert_lookup (records : list IndexRecord)
    (table : gmap (string * string) IndexRecord) (r : IndexRecord) :
  r ∈ records →
  ∃ r', r' ∈ records
        ∧ rec_session_id r' = rec_session_id r ∧ rec_segment_id r' = rec_segment_id r
        ∧ foldl upsert_row table records !! (rec_session_id r, rec_segment_id r) = Some r'.
Proof.
  induction records as [|x records IH] using rev_ind; intros Hin.
  - inversion Hin.
  - rewrite foldl_app. cbn [foldl]. unfold upsert_row at 1.
    destruct (decide ((rec_session_id x, rec_segment_id x)
                      = (rec_session_id r, rec_segment_id r))) as [Heq|Hne].
    + exists x. injection Heq as H1 H2. rewrite H1, H2.
      split; [apply elem_of_app; right; constructor|].
      split; [reflexivity|]. split; [reflexivity|]. apply lookup_insert_eq.
    + rewrite lookup_insert_ne by exact Hne.
      apply elem_of_app in Hin as [Hin|Hin].
      * destruct (IH Hin) as (r' & Hr' & Hs & Hg & Hl).
        exists r'. split; [apply elem_of_app; left; exact Hr'|]. auto.
      * apply list_elem_of_singleton in Hin. subst x. contradiction.
Qed.

(** C2, as stated, fails: over a store that refuses the bulk request
    after it has written the rows of the first two segments, the run on
    the 65 second source raises, and two records of that run are in the
    table, which was empty before. *)
Lemma ingest_video_refused_upsert_keeps_rows :
  w_table Sample.world = ∅
  ∧ ∃ w' e,
      ingest_video (CloudVideoRAGService_init 30 0 Sample.refusing_services)
                   "session-1" "talk.mp4" Sample.world = (w', Raise e)
      ∧ map fst (map_to_list (w_table w'))
        = [ ("session-1", "seg-0001-30000-60000"); ("session-1", "seg-0000-0-30000") ]
      ∧ length (w_upserts w') = 1%nat.
Proof.
  split; [reflexivity|]. eexists _, _. split; [vm_compute; reflexivity|].
  split; vm_compute; reflexivity.
Qed.

(** C2, amended: a run of [ingest_video] sends nothing to the store
    before every segment is enriched and embedded, and then one bulk
    request with all the records (none when there is no segment).  If the
    run returns, the table is the former table with the record of every
    segment written into it.  If it raises while segmenting, enriching or
    embedding, no request was sent and the table is as it was.  If it
    raises because the store refused the request, the table is the former
    table with those records of the request written into it that the store
    had written when it refused: nothing is rolled back. *)
Theorem ingest_video_single_bulk_upsert (self : CloudVideoRAGService)
    (session_id video_path : string) (w : World) :
  match ingest_video self session_id video_path w with
  | (w', Ok _) =>
      ∃ w0 segments temp_dir records,
        segment (segmenter self) video_path w = (w0, Ok (segments, temp_dir))
        ∧ Forall2 (record_of_segment session_id) segments records
        ∧ w_table w' = foldl upsert_row (w_table w) records
        ∧ (∀ seg, seg ∈ segments →
             ∃ r, r ∈ records ∧ rec_segment_id r = seg_id seg
                  ∧ w_table w' !! (session_id, seg_id seg) = Some r)
        ∧ w_upserts w' = w_upserts w ++ match records with [] => [] | _ => [records] end
  | (w', Raise e) =>
      ((snd (segment (segmenter self) video_path w) = Raise e
        ∨ ∃ w0 segments temp_dir,
            segment (segmenter self) video_path w = (w0, Ok (segments, temp_dir))
            ∧ snd (map_m (enrich_segment (remote self) session_id) segments w0) = Raise e)
       ∧ w_table w' = w_table w
       ∧ w_upserts w' = w_upserts w)
      ∨ ∃ w0 segments temp_dir w1 records refusal,
          segment (segmenter self) video_path w = (w0, Ok (segments, temp_dir))
          ∧ map_m (enrich_segment (remote self) session_id) segments w0 = (w1, Ok records)
          ∧ Forall2 (record_of_segment session_id) segments records
          ∧ upsert_fails (remote self) (w_tick w1) records = Some refusal
          ∧ e = refusal_error refusal
          ∧ w_upserts w' = w_upserts w ++ [records]
          ∧ w_table w' = foldl upsert_row (w_table w)
                               (List.filter (refusal_written refusal) records)
  end.
Proof.
  unfold ingest_video. unfold bind at 1.
  pose proof (segment_store_kept (segmenter self) video_path w) as Hseg.
  destruct (segment (segmenter self) video_path w) as [w0 [[segments temp_dir]|e]];
    simpl in Hseg; destruct Hseg as [Ht0 Hu0];
    [|left; split; [left; reflexivity|split; [exact Ht0|exact Hu0]]].
  unfold try_finally, bind, rmtree.
  destruct (map_m_enrich_effect (remote self) session_id segments w0) as [Hw1 Hrecs].
  destruct (map_m (enrich_segment (remote self) session_id) segments w0)
    as [w1 [records|e]] eqn:Hmap; simpl in Hw1, Hrecs; destruct Hw1 as (_ & Ht1 & Hu1).
  - specialize (Hrecs records eq_refl).
    destruct records as [|r0 records'].
    + simpl. exists w0, segments, temp_dir, []. split; [reflexivity|].
      split; [exact Hrecs|]. split; [simpl; congruence|].
      split; [|rewrite app_nil_r; congruence].
      intros seg Hin. apply Forall2_nil_inv_r in Hrecs. subst segments. inversion Hin.
    + unfold upsert_records, _upsert_sync.
      destruct (upsert_fails (remote self) (w_tick w1) (r0 :: records'))
        as [refusal|] eqn:Hfail.
      * cbn [set_paths w_table w_upserts fst snd]. right.
        exists w0, segments, temp_dir, w1, (r0 :: records'), refusal.
        split; [reflexivity|]. split; [exact Hmap|]. split; [exact Hrecs|].
        split; [exact Hfail|]. split; [reflexivity|]. split; congruence.
      * cbn [set_paths w_table w_upserts fst snd].
        exists w0, segments, temp_dir, (r0 :: records'). split; [reflexivity|].
        split; [exact Hrecs|]. split; [congruence|]. split; [|congruence].
        intros seg Hin.
        destruct (proj1 (list_elem_of_lookup _ _) Hin) as [i Hi].
        destruct (Forall2_lookup_l _ _ _ _ _ Hrecs Hi) as (r & Hr & Hsess & Hid & _).
        apply list_elem_of_lookup_2 in Hr.
        destruct (foldl_upsert_lookup _ (w_table w1) r Hr) as (r' & Hr' & Hs' & Hg' & Hl).
        exists r'. split; [exact Hr'|]. split; [congruence|].
        rewrite Hsess, Hid in Hl. exact Hl.
  - simpl. left. split; [|split; congruence].
    right. exists w0, segments, temp_dir. split; [reflexivity|]. rewrite Hmap. reflexivity.
Qed.

(** Once segmentation has returned, the temporary directory and all
    below it are gone when [ingest_video] returns or raises. *)
Lemma ingest_video_releases_after_segmentation (self : CloudVideoRAGService)
    (session_id video_path : string) (w w0 : World) (segments : list VideoSegment)
    (temp_dir : string) :
  segment (segmenter self) video_path w = (w0, Ok (segments, temp_dir)) →
  (temp_dir ∉ w_paths (fst (ingest_video self session_id video_path w)))
  ∧ ∀ p, p ∈ w_paths (fst (ingest_video self session_id video_path w)) →
         under temp_dir p = false.
Proof.
  intros Hseg.
  assert (Hgone : ∀ p, p ∈ w_paths (fst (ingest_video self session_id video_path w)) →
                       under temp_dir p = false).
  { intros p. unfold ingest_video. unfold bind at 1. rewrite Hseg.
    unfold try_finally.
    destruct (bind _ _ w0) as [w1 r]. rewrite rmtree_effect.
    simpl. intros Hp. apply elem_of_filter in Hp as [Hu _]. exact Hu. }
  split; [|exact Hgone].
  intros Hin. apply Hgone in Hin. rewrite under_self in Hin. discriminate Hin.
Qed.

(** C3 fails on the source: when the decoding library cannot open the
    video, [segment] has already created its temporary directory, and
    [ingest_video] lets the error through before its [try] block is
    entered, so the directory is still on disk after the call. *)
Theorem ingest_video_leaks_when_source_unreadable :
  w_videos Sample.world !! "missing.mp4" = None
  ∧ ("/tmp/videorag_segments_0" ∉ w_paths Sample.world)
  ∧ ∃ w' e,
      ingest_video (CloudVideoRAGService_init 30 6 Sample.services)
                   "session-1" "missing.mp4" Sample.world = (w', Raise e)
      ∧ exc_class e = "OSError"
      ∧ "/tmp/videorag_segments_0" ∈ w_paths w'.
Proof.
  split; [vm_compute; reflexivity|]. split; [vm_compute; discriminate|].
  eexists _, _. split; [vm_compute; reflexivity|]. split; [reflexivity|].
  vm_compute. reflexivity.
Qed.

(** The same at every unreadable source. *)
Lemma ingest_video_unreadable_source (self : CloudVideoRAGService)
    (session_id video_path : string) (w : World) :
  w_videos w !! video_path = None →
  ∃ w' e, ingest_video self session_id video_path w = (w', Raise e)
          ∧ path_exists ("/tmp/" +:+ "videorag_segments_" +:+ pretty (w_next_tmp w)) w'
            = (w', Ok true).
Proof.
  intros Hv. unfold ingest_video, bind, segment, bind, mkdtemp, VideoFileClip. simpl.
  rewrite Hv. eexists _, _. split; [reflexivity|].
  unfold path_exists. rewrite bool_decide_eq_true_2; [reflexivity|]. simpl. set_solver.
Qed.

(** A whole run on the 65 second source: three records are written by
    one request, and nothing of the run is left on disk. *)
Example ingest_video_sample :
  ∃ w', ingest_video (CloudVideoRAGService_init 30 0 Sample.services)
                     "session-1" "talk.mp4" Sample.world = (w', Ok tt)
        ∧ map fst (map_to_list (w_table w'))
          = [ ("session-1", "seg-0001-30000-60000"); ("session-1", "seg-0002-60000-65000");
              ("session-1", "seg-0000-0-30000") ]
        ∧ length (w_upserts w') = 1%nat
        ∧ w_paths w' = ∅.
Proof.
  eexists. split; [vm_compute; reflexivity|].
  split; [vm_compute; reflexivity|]. split; vm_compute; reflexivity.
Qed.

(** * Further properties *)

#[local] Set Warnings "-clear-no-such-hyp".

(** ** Segments as a partition of the source *)

Lemma py_min_below (a b : Q) : (a <= b)%Q -> py_min a b = a.
Proof.
  intros Hab. unfold py_min. destruct (Qlt_le_dec b a) as [H|_]; [lra|reflexivity].
Qed.

(** Below the last index the end of a segment is the next multiple of the
    segment duration, as an integer. *)
Lemma segment_end_inner (S : Z) (D : Q) (i : nat) :
  0 < S -> (0 < D)%Q -> Z.of_nat i + 1 < Qceiling (D / inject_Z S) ->
  py_min (inject_Z ((Z.of_nat i + 1) * S)) D = inject_Z ((Z.of_nat i + 1) * S).
Proof.
  intros HS HD Hi. apply py_min_below.
  destruct (ceiling_bounds D S HS HD) as (_ & _ & Hlower).
  assert (inject_Z ((Z.of_nat i + 1) * S) <= inject_Z ((Qceiling (D / inject_Z S) - 1) * S))%Q
    by (rewrite <- Zle_Qle; nia).
  lra.
Qed.

(** X1: the segments of a source of positive duration tile it: the first
    starts at 0, each one ends where the next starts, each has a positive
    length of at most [segment_duration], and every one but the last
    lasts exactly [segment_duration]. *)
Theorem segments_tile_source (S fps : Z) (D : Q) (w w' : World)
    (video_path temp_dir : string) (clip : Clip) (segments : list VideoSegment) :
  0 < S -> (0 < D)%Q ->
  w_videos w !! video_path = Some clip ->
  clip_duration clip = Some D ->
  segment (VideoSegmenter_init S fps) video_path w = (w', Ok (segments, temp_dir)) ->
  (∃ first, segments !! 0%nat = Some first ∧ (seg_start first == 0)%Q)
  ∧ (∀ (i : nat) a b, segments !! i = Some a → segments !! Datatypes.S i = Some b →
       seg_end a = seg_start b ∧ (seg_length a == inject_Z S)%Q)
  ∧ (∀ seg, seg ∈ segments → (0 < seg_length seg ∧ seg_length seg <= inject_Z S)%Q).
Proof.
  intros HS HD Hv Hd Hrun.
  rewrite (segment_run_inv S fps D w w' video_path temp_dir clip _ HS HD Hv Hd Hrun).
  destruct (ceiling_bounds D S HS HD) as (Hn & _ & _).
  set (n := Qceiling (D / inject_Z S)) in *.
  split; [|split].
  - replace (Z.to_nat n) with (Datatypes.S (Z.to_nat n - 1)) by lia.
    simpl. eexists; split; [reflexivity|]. simpl. reflexivity.
  - intros i a b Ha Hb.
    apply lookup_segment_values in Ha as [_ ->].
    apply lookup_segment_values in Hb as [Hlt ->].
    unfold seg_length. cbn [seg_start seg_end segment_value].
    unfold segment_start, segment_end. rewrite (init_segment_duration S fps HS).
    rewrite (segment_end_inner S D i HS HD) by (fold n; lia).
    split; [f_equal; lia|].
    replace ((Z.of_nat i + 1) * S) with (Z.of_nat i * S + S) by lia.
    rewrite inject_Z_plus. ring.
  - intros seg Hin. apply list_elem_of_lookup in Hin as [i Hi].
    apply lookup_segment_values in Hi as [Hlt ->].
    unfold seg_length. cbn [seg_start seg_end segment_value].
    unfold segment_start, segment_end. rewrite (init_segment_duration S fps HS).
    apply subclip_duration_bounds; [exact HS|exact HD|fold n; lia].
Qed.

Lemma segments_tile_source_witness :
  (∃ first, Sample2.segments !! 0%nat = Some first ∧ (seg_start first == 0)%Q)
  ∧ (∀ (i : nat) a b, Sample2.segments !! i = Some a →
       Sample2.segments !! Datatypes.S i = Some b →
       seg_end a = seg_start b ∧ (seg_length a == inject_Z 30)%Q)
  ∧ (∀ seg, seg ∈ Sample2.segments → (0 < seg_length seg ∧ seg_length seg <= inject_Z 30)%Q).
Proof.
  apply (segments_tile_source 30 2 65 Sample.world Sample2.segmented_world
           "talk.mp4" "/tmp/videorag_segments_0" Sample.clip_65).
  - reflexivity.
  - reflexivity.
  - vm_compute. reflexivity.
  - reflexivity.
  - vm_compute. reflexivity.
Defined.

Lemma Qsum_app (l1 l2 : list Q) : (Qsum (l1 ++ l2) == Qsum l1 + Qsum l2)%Q.
Proof.
  induction l1 as [|x l1 IH]; simpl; [ring|].
  unfold Qsum in *. simpl. rewrite IH. ring.
Qed.

Lemma inner_lengths_sum (S fps : Z) (D : Q) clip temp_dir (k : nat) :
  0 < S -> (0 < D)%Q -> Z.of_nat k < Qceiling (D / inject_Z S) ->
  (Qsum (map seg_length
           (map (segment_value (VideoSegmenter_init S fps) clip D temp_dir) (seq 0 k)))
   == inject_Z (Z.of_nat k * S))%Q.
Proof.
  intros HS HD. induction k as [|k IH]; intros Hk; [reflexivity|].
  rewrite seq_S, !map_app, Qsum_app, IH by lia.
  cbn [map Qsum foldr Nat.add]. unfold seg_length at 1.
  cbn [seg_start seg_end segment_value].
  unfold segment_start, segment_end. rewrite (init_segment_duration S fps HS).
  rewrite (segment_end_inner S D k HS HD) by lia.
  replace (Z.of_nat (Datatypes.S k) * S) with (Z.of_nat k * S + S) by lia.
  replace ((Z.of_nat k + 1) * S) with (Z.of_nat k * S + S) by lia.
  rewrite !inject_Z_plus. ring.
Qed.

(** X2: the lengths of the segments of a source of positive duration add
    up to the duration of the source. *)
Theorem segment_lengths_sum (S fps : Z) (D : Q) (w w' : World)
    (video_path temp_dir : string) (clip : Clip) (segments : list VideoSegment) :
  0 < S -> (0 < D)%Q ->
  w_videos w !! video_path = Some clip ->
  clip_duration clip = Some D ->
  segment (VideoSegmenter_init S fps) video_path w = (w', Ok (segments, temp_dir)) ->
  (Qsum (map seg_length segments) == D)%Q.
Proof.
  intros HS HD Hv Hd Hrun.
  rewrite (segment_run_inv S fps D w w' video_path temp_dir clip _ HS HD Hv Hd Hrun).
  destruct (ceiling_bounds D S HS HD) as (Hn & Hupper & _).
  set (n := Qceiling (D / inject_Z S)) in *.
  replace (Z.to_nat n) with (Datatypes.S (Z.to_nat (n - 1))) by lia.
  rewrite seq_S, !map_app, Qsum_app, (inner_lengths_sum S fps D) by (try fold n; lia || assumption).
  cbn [map Qsum foldr Nat.add]. unfold seg_length.
  cbn [seg_start seg_end segment_value].
  unfold segment_start, segment_end. rewrite (init_segment_duration S fps HS), py_min_Qmin.
  replace (Z.of_nat (Z.to_nat (n - 1)) + 1) with n by lia.
  rewrite (Q.min_r _ _ Hupper). ring.
Qed.

Lemma segment_lengths_sum_witness :
  (Qsum (map seg_length Sample2.segments) == 65)%Q.
Proof.
  apply (segment_lengths_sum 30 2 65 Sample.world Sample2.segmented_world
           "talk.mp4" "/tmp/videorag_segments_0" Sample.clip_65).
  - reflexivity.
  - reflexivity.
  - vm_compute. reflexivity.
  - reflexivity.
  - vm_compute. reflexivity.
Defined.

(** ** Configuration out of range *)

Lemma init_clamped (S fps : Z) :
  S <= 1 -> VideoSegmenter_init S fps = VideoSegmenter_init 1 (Z.max 0 fps).
Proof. intros HS. unfold VideoSegmenter_init. f_equal; lia. Qed.

(** X3: a configured [segment_duration] of zero or less counts as one
    second, and a negative [frames_per_segment] as zero: the source is
    cut into [ceil(D)] segments, the [i]-th starting at second [i], and
    none of them has a frame. *)
Theorem segmenter_clamps_configuration (S fps : Z) (D : Q) (w w' : World)
    (video_path temp_dir : string) (clip : Clip) (segments : list VideoSegment) :
  S <= 0 -> fps < 0 -> (0 < D)%Q ->
  w_videos w !! video_path = Some clip ->
  clip_duration clip = Some D ->
  segment (VideoSegmenter_init S fps) video_path w = (w', Ok (segments, temp_dir)) ->
  Z.of_nat (length segments) = Qceiling D
  ∧ ∀ (i : nat) seg, segments !! i = Some seg →
      seg_start seg = inject_Z (Z.of_nat i) ∧ frames_base64 seg = [].
Proof.
  intros HS Hfps HD Hv Hd Hrun.
  rewrite init_clamped in Hrun by lia.
  pose proof (segment_run_inv 1 (Z.max 0 fps) D w w' video_path temp_dir clip _
                eq_refl HD Hv Hd Hrun) as ->.
  assert (Hdiv : Qceiling (D / inject_Z 1) = Qceiling D).
  { apply Qceiling_comp. unfold Qdiv. change (/ inject_Z 1)%Q with 1%Q. ring. }
  rewrite Hdiv.
  assert (Hpos : 0 <= Qceiling D).
  { pose proof (Qle_ceiling D) as Hc.
    destruct (Z_lt_le_dec (Qceiling D) 0) as [Hneg|]; [|assumption].
    assert (inject_Z (Qceiling D) <= inject_Z (-1))%Q by (rewrite <- Zle_Qle; lia).
    change (inject_Z (-1)) with (-1 # 1)%Q in *. lra. }
  split; [rewrite length_map, length_seq; lia|].
  intros i seg Hi. apply lookup_segment_values in Hi as [_ ->].
  cbn [seg_start frames_base64 segment_value]. unfold segment_start.
  cbn [segment_duration VideoSegmenter_init]. split.
  - f_equal. lia.
  - unfold _frame_offsets. cbn [frames_per_segment VideoSegmenter_init].
    replace (Z.max 0 (Z.max 0 fps)) with 0 by lia. reflexivity.
Qed.

Lemma segmenter_clamps_configuration_witness :
  Z.of_nat (length (map (segment_value (VideoSegmenter_init 0 (-1)) Sample.clip_65 65
                                       "/tmp/videorag_segments_0") (seq 0 65)))
  = Qceiling 65
  ∧ ∀ (i : nat) seg,
      map (segment_value (VideoSegmenter_init 0 (-1)) Sample.clip_65 65
                         "/tmp/videorag_segments_0") (seq 0 65) !! i = Some seg →
      seg_start seg = inject_Z (Z.of_nat i) ∧ frames_base64 seg = [].
Proof.
  apply (segmenter_clamps_configuration 0 (-1) 65 Sample.world
           (fst (segment (VideoSegmenter_init 0 (-1)) "talk.mp4" Sample.world))
           "talk.mp4" "/tmp/videorag_segments_0" Sample.clip_65).
  - vm_compute. discriminate.
  - reflexivity.
  - reflexivity.
  - vm_compute. reflexivity.
  - reflexivity.
  - vm_compute. reflexivity.
Defined.

(** ** The workspace of a segmentation *)

Lemma prefix_append (a b : string) : String.prefix a (a +:+ b) = true.
Proof.
  induction a as [|c a IH]; [destruct b; reflexivity|].
  change (String.prefix (String c a) (String c (a +:+ b)) = true). simpl.
  destruct (ascii_dec c c) as [_|Hne]; [exact IH|contradiction].
Qed.

Lemma append_assoc (a b c : string) : (a +:+ b) +:+ c = a +:+ (b +:+ c).
Proof.
  induction a as [|x a IH]; [reflexivity|].
  change (String x ((a +:+ b) +:+ c) = String x (a +:+ (b +:+ c))). f_equal. exact IH.
Qed.

Lemma under_path_join (dir name : string) : under dir (path_join dir name) = true.
Proof.
  unfold under, path_join. rewrite <- append_assoc, prefix_append. apply orb_true_r.
Qed.

Lemma disk_grew_trans (a b : gset string) (w1 w2 w3 : World) :
  disk_grew a w1 w2 → disk_grew b w2 w3 → disk_grew (a ∪ b) w1 w3.
Proof.
  intros (Hp & ? & ? & ? & ? & ?) (Hp' & ? & ? & ? & ? & ?).
  unfold disk_grew. split_and!; try congruence.
  rewrite Hp', Hp. set_solver.
Qed.

Lemma segment_one_disk self clip duration temp_dir index w :
  disk_grew (audio_files [segment_value self clip duration temp_dir index]) w
            (fst (segment_one self clip duration temp_dir index w)).
Proof.
  unfold segment_one, audio_files, bind, ret, write_audiofile.
  cbn [omap list_omap audio_path segment_value].
  destruct (clip_has_audio clip); unfold disk_grew; simpl; split_and!;
    try reflexivity; set_solver.
Qed.

(** The audio files the loop of [segment] writes. *)
Lemma map_m_segment_one_disk self clip duration temp_dir indices w :
  disk_grew (audio_files (map (segment_value self clip duration temp_dir) indices)) w
            (fst (map_m (segment_one self clip duration temp_dir) indices w)).
Proof.
  revert w. induction indices as [|i rest IH]; intros w.
  - unfold disk_grew, audio_files. simpl. split_and!; try reflexivity. set_solver.
  - cbn [map_m]. unfold bind at 1.
    pose proof (segment_one_disk self clip duration temp_dir i w) as H1.
    destruct (segment_one_returns self clip duration temp_dir i w) as [w1 Hone].
    rewrite Hone in H1 |- *. simpl in H1. unfold bind at 1.
    pose proof (IH w1) as H2.
    destruct (map_m (segment_one self clip duration temp_dir) rest w1) as [w2 [segs|e]];
      simpl in H2 |- *;
      pose proof (disk_grew_trans _ _ _ _ _ H1 H2) as H3;
      (replace (audio_files (segment_value self clip duration temp_dir i
                             :: map (segment_value self clip duration temp_dir) rest))
         with (audio_files [segment_value self clip duration temp_dir i]
               ∪ audio_files (map (segment_value self clip duration temp_dir) rest));
       [exact H3|]);
      unfold audio_files; cbn [omap list_omap];
      destruct (audio_path (segment_value self clip duration temp_dir i)); simpl; set_solver.
Qed.

(** What a segmentation that returns has done to the world. *)
Lemma segment_disk (self : VideoSegmenter) (video_path temp_dir : string)
    (w w' : World) (segments : list VideoSegment) :
  segment self video_path w = (w', Ok (segments, temp_dir)) →
  temp_dir = "/tmp/videorag_segments_" +:+ pretty (w_next_tmp w)
  ∧ w_paths w' = {[ temp_dir ]} ∪ audio_files segments ∪ w_paths w
  ∧ w_next_tmp w' = N.succ (w_next_tmp w)
  ∧ w_table w' = w_table w ∧ w_upserts w' = w_upserts w ∧ w_tick w' = w_tick w.
Proof.
  unfold segment. unfold bind at 1. unfold mkdtemp. unfold bind at 1.
  unfold VideoFileClip. cbn [w_videos].
  destruct (w_videos w !! video_path) as [clip|]; [|discriminate].
  unfold bind at 1.
  match goal with |- context [map_m ?f ?l ?w0] =>
    pose proof (map_m_segment_one_disk self clip (duration_or_zero (clip_duration clip))
                  ("/tmp/" +:+ "videorag_segments_" +:+ pretty (w_next_tmp w)) l w0) as Hd;
    destruct (map_m_segment_one self clip (duration_or_zero (clip_duration clip))
                ("/tmp/" +:+ "videorag_segments_" +:+ pretty (w_next_tmp w)) l w0)
      as [w2 Hrun] end.
  rewrite Hrun in Hd |- *. simpl in Hd. unfold ret. intros [= <- <- <-].
  destruct Hd as (Hp & Hn & _ & Ht & Hu & Hk). simpl in Hp, Hn, Ht, Hu, Hk.
  split; [reflexivity|]. split_and!; try assumption.
  rewrite Hp. set_solver.
Qed.

(** X4: a segmentation that returns has added to the disk its temporary
    directory and the audio files of its segments, and nothing else; the
    table, the requests sent and the count of remote calls are as before. *)
Theorem segment_disk_effect (self : VideoSegmenter) (video_path temp_dir : string)
    (w w' : World) (segments : list VideoSegment) :
  segment self video_path w = (w', Ok (segments, temp_dir)) →
  temp_dir = "/tmp/videorag_segments_" +:+ pretty (w_next_tmp w)
  ∧ w_paths w' = {[ temp_dir ]} ∪ audio_files segments ∪ w_paths w
  ∧ w_next_tmp w' = N.succ (w_next_tmp w)
  ∧ w_table w' = w_table w ∧ w_upserts w' = w_upserts w ∧ w_tick w' = w_tick w.
Proof. exact (segment_disk self video_path temp_dir w w' segments). Qed.

Lemma segment_disk_effect_witness :
  "/tmp/videorag_segments_0" = "/tmp/videorag_segments_" +:+ pretty (w_next_tmp Sample.world)
  ∧ w_paths (fst (segment (VideoSegmenter_init 30 2) "talk.mp4" Sample.world))
    = {[ "/tmp/videorag_segments_0" ]}
      ∪ audio_files (map (segment_value (VideoSegmenter_init 30 2) Sample.clip_65 65
                                        "/tmp/videorag_segments_0") (seq 0 3))
      ∪ w_paths Sample.world
  ∧ w_next_tmp (fst (segment (VideoSegmenter_init 30 2) "talk.mp4" Sample.world))
    = N.succ (w_next_tmp Sample.world)
  ∧ w_table (fst (segment (VideoSegmenter_init 30 2) "talk.mp4" Sample.world))
    = w_table Sample.world
  ∧ w_upserts (fst (segment (VideoSegmenter_init 30 2) "talk.mp4" Sample.world))
    = w_upserts Sample.world
  ∧ w_tick (fst (segment (VideoSegmenter_init 30 2) "talk.mp4" Sample.world))
    = w_tick Sample.world.
Proof.
  apply (segment_disk_effect (VideoSegmenter_init 30 2) "talk.mp4").
  vm_compute. reflexivity.
Defined.

(** X5: a segment of a source without audio has no audio handle; a
    segment of a source with audio names the file [<id>.mp3] of the
    temporary directory, which exists when [segment] returns. *)
Theorem segment_audio_handles (self : VideoSegmenter) (video_path temp_dir : string)
    (clip : Clip) (w w' : World) (segments : list VideoSegment) (seg : VideoSegment) :
  w_videos w !! video_path = Some clip →
  segment self video_path w = (w', Ok (segments, temp_dir)) →
  seg ∈ segments →
  if clip_has_audio clip
  then audio_path seg = Some (path_join temp_dir (seg_id seg +:+ ".mp3"))
       ∧ path_exists (path_join temp_dir (seg_id seg +:+ ".mp3")) w' = (w', Ok true)
       ∧ under temp_dir (path_join temp_dir (seg_id seg +:+ ".mp3")) = true
  else audio_path seg = None.
Proof.
  intros Hv Hrun Hin.
  destruct (segment_disk self video_path temp_dir w w' segments Hrun)
    as (_ & Hpaths & _).
  destruct (segment_returns self video_path clip w Hv) as (w1 & tmp & Hrun').
  rewrite Hrun in Hrun'. injection Hrun' as _ Hsegs Htmp. subst tmp.
  assert (Haudio : audio_path seg
                   = if clip_has_audio clip
                     then Some (path_join temp_dir (seg_id seg +:+ ".mp3")) else None).
  { rewrite Hsegs in Hin. apply list_elem_of_fmap in Hin as (i & -> & _). reflexivity. }
  destruct (clip_has_audio clip); [|exact Haudio].
  split; [exact Haudio|]. split; [|apply under_path_join].
  unfold path_exists. rewrite bool_decide_eq_true_2; [reflexivity|].
  rewrite Hpaths. apply elem_of_union_l, elem_of_union_r.
  unfold audio_files. apply elem_of_list_to_set, list_elem_of_omap.
  exists seg. split; [exact Hin|exact Haudio].
Qed.

Lemma segment_audio_handles_witness :
  if clip_has_audio Sample.clip_65
  then audio_path Sample.segment_2
       = Some (path_join "/tmp/videorag_segments_0" (seg_id Sample.segment_2 +:+ ".mp3"))
       ∧ path_exists (path_join "/tmp/videorag_segments_0" (seg_id Sample.segment_2 +:+ ".mp3"))
           (fst (segment (VideoSegmenter_init 30 2) "talk.mp4" Sample.world))
         = (fst (segment (VideoSegmenter_init 30 2) "talk.mp4" Sample.world), Ok true)
       ∧ under "/tmp/videorag_segments_0"
               (path_join "/tmp/videorag_segments_0" (seg_id Sample.segment_2 +:+ ".mp3"))
         = true
  else audio_path Sample.segment_2 = None.
Proof.
  apply (segment_audio_handles (VideoSegmenter_init 30 2) "talk.mp4"
           "/tmp/videorag_segments_0" Sample.clip_65 Sample.world
           (fst (segment (VideoSegmenter_init 30 2) "talk.mp4" Sample.world))
           (map (segment_value (VideoSegmenter_init 30 2) Sample.clip_65 65
                               "/tmp/videorag_segments_0") (seq 0 3))
           Sample.segment_2).
  - vm_compute. reflexivity.
  - vm_compute. reflexivity.
  - vm_compute. right. right. left.
Defined.

(** ** Distinct identities *)

(** X6: the segments of one segmentation have pairwise distinct
    identities. *)
Theorem segment_ids_distinct (S fps : Z) (video_path temp_dir : string)
    (w w' : World) (segments : list VideoSegment) :
  segment (VideoSegmenter_init S fps) video_path w = (w', Ok (segments, temp_dir)) →
  NoDup (map seg_id segments).
Proof.
  intros Hrun.
  destruct (w_videos w !! video_path) as [clip|] eqn:Hv.
  - destruct (segment_returns (VideoSegmenter_init S fps) video_path clip w Hv)
      as (w1 & tmp & Hrun').
    rewrite Hrun in Hrun'. injection Hrun' as _ -> _.
    rewrite map_map. apply NoDup_fmap_2_strong; [|apply NoDup_seq].
    intros i j _ _ Hid. cbn [seg_id segment_value] in Hid.
    apply segment_id_of_inj in Hid as (Hij & _); [exact Hij|..];
      unfold segment_start; pose proof (init_segment_duration_pos S fps); nia.
  - revert Hrun. unfold segment, bind, mkdtemp, VideoFileClip. simpl. rewrite Hv.
    discriminate.
Qed.

Lemma segment_ids_distinct_witness :
  NoDup (map seg_id (map (segment_value (VideoSegmenter_init 30 2) Sample.clip_65 65
                                        "/tmp/videorag_segments_0") (seq 0 3))).
Proof.
  apply (segment_ids_distinct 30 2 "talk.mp4" "/tmp/videorag_segments_0" Sample.world
           (fst (segment (VideoSegmenter_init 30 2) "talk.mp4" Sample.world))).
  vm_compute. reflexivity.
Defined.

(** ** Transcription of extracted audio *)

(** X7: the audio handle of a segment is still good while the segments
    are enriched: in any later state reached by remote calls alone,
    transcribing it asks the service, once, and returns the service's text
    (the empty string for an absent text) or raises the service's error. *)
Theorem extracted_audio_is_transcribed (R : Remote) (self : VideoSegmenter)
    (video_path temp_dir : string) (w w' w1 : World)
    (segments : list VideoSegment) (seg : VideoSegment) (p : string) :
  segment self video_path w = (w', Ok (segments, temp_dir)) →
  seg ∈ segments →
  audio_path seg = Some p →
  calls_only w' w1 →
  transcribe_path R (audio_path seg) w1
  = (tick w1, match transcriptions_create R (w_tick w1) p with
              | Ok (Some s) => Ok s
              | Ok None => Ok ""
              | Raise e => Raise e
              end).
Proof.
  intros Hrun Hin Hp (Hpaths & _).
  destruct (segment_disk self video_path temp_dir w w' segments Hrun)
    as (_ & Hdisk & _).
  rewrite Hp. apply transcribe_present_audio.
  rewrite Hpaths, Hdisk. apply elem_of_union_l, elem_of_union_r.
  unfold audio_files. apply elem_of_list_to_set, list_elem_of_omap.
  exists seg. split; [exact Hin|exact Hp].
Qed.

Lemma extracted_audio_is_transcribed_witness :
  transcribe_path Sample.services (audio_path Sample.segment_2)
    (tick (fst (segment (VideoSegmenter_init 30 2) "talk.mp4" Sample.world)))
  = (tick (tick (fst (segment (VideoSegmenter_init 30 2) "talk.mp4" Sample.world))),
     match transcriptions_create Sample.services
             (w_tick (tick (fst (segment (VideoSegmenter_init 30 2) "talk.mp4"
                                   Sample.world))))
             "/tmp/videorag_segments_0/seg-0002-60000-65000.mp3" with
     | Ok (Some s) => Ok s
     | Ok None => Ok ""
     | Raise e => Raise e
     end).
Proof.
  apply (extracted_audio_is_transcribed Sample.services (VideoSegmenter_init 30 2)
           "talk.mp4" "/tmp/videorag_segments_0" Sample.world
           (fst (segment (VideoSegmenter_init 30 2) "talk.mp4" Sample.world))
           (tick (fst (segment (VideoSegmenter_init 30 2) "talk.mp4" Sample.world)))
           (map (segment_value (VideoSegmenter_init 30 2) Sample.clip_65 65
                               "/tmp/videorag_segments_0") (seq 0 3))
           Sample.segment_2).
  - vm_compute. reflexivity.
  - vm_compute. right. right. left.
  - reflexivity.
  - repeat split.
Defined.

(** ** Embedding input: other shapes of the summary *)

Lemma build_embedding_input_dict (R : Remote) (d : gmap string PyVal)
    (points : list string) (caption transcript : string) :
  all_str match default (PyList []) (d !! "key_points") with
          | PyStr s => [PyStr s]
          | PyList l => l
          | PyDict keys => map (fun kv => PyStr (fst kv)) (map_to_list keys)
          | _ => []
          end = Ok points →
  build_embedding_input R (PyDict d) caption transcript
  = Ok ("Summary:" +:+ nl +:+ py_str R (default (PyStr "") (d !! "summary")) +:+ nl
        +:+ "Key Points:" +:+ nl +:+ join nl points +:+ nl
        +:+ "Caption:" +:+ nl +:+ caption +:+ nl
        +:+ "Transcript:" +:+ nl +:+ transcript).
Proof.
  intros Hpoints. unfold build_embedding_input, py_get.
  destruct (default (PyList []) (d !! "key_points")) eqn:Hk;
    rewrite Hpoints; reflexivity.
Qed.

(** X8: key points given as one string are taken as a single point, not
    spelled out character by character. *)
Theorem embedding_input_single_string_point (R : Remote) (d : gmap string PyVal)
    (point caption transcript : string) :
  d !! "key_points" = Some (PyStr point) →
  build_embedding_input R (PyDict d) caption transcript
  = Ok ("Summary:" +:+ nl +:+ py_str R (default (PyStr "") (d !! "summary")) +:+ nl
        +:+ "Key Points:" +:+ nl +:+ point +:+ nl
        +:+ "Caption:" +:+ nl +:+ caption +:+ nl
        +:+ "Transcript:" +:+ nl +:+ transcript).
Proof.
  intros Hk. rewrite (build_embedding_input_dict R d [point]); [reflexivity|].
  rewrite Hk. reflexivity.
Qed.

Lemma embedding_input_single_string_point_witness :
  build_embedding_input Sample.services
    (PyDict {[ "summary" := PyStr "greeting"; "key_points" := PyStr "wave" ]})
    "a person waves" "hello"
  = Ok ("Summary:" +:+ nl
        +:+ py_str Sample.services
              (default (PyStr "")
                 (({[ "summary" := PyStr "greeting"; "key_points" := PyStr "wave" ]}
                   : gmap string PyVal) !! "summary")) +:+ nl
        +:+ "Key Points:" +:+ nl +:+ "wave" +:+ nl
        +:+ "Caption:" +:+ nl +:+ "a person waves" +:+ nl
        +:+ "Transcript:" +:+ nl +:+ "hello").
Proof.
  apply (embedding_input_single_string_point Sample.services
           {[ "summary" := PyStr "greeting"; "key_points" := PyStr "wave" ]}
           "wave" "a person waves" "hello").
  vm_compute. reflexivity.
Defined.

(** X9: a summary dictionary without the key [key_points], or with
    [None], a boolean or a number under it, gives an empty block of key
    points, and one without the key [summary] an empty summary; no error
    is raised. *)
Theorem embedding_input_missing_parts (R : Remote) (d : gmap string PyVal)
    (caption transcript : string) :
  match d !! "key_points" with
  | None | Some PyNone | Some (PyBool _) | Some (PyInt _) | Some (PyFloat _) => True
  | _ => False
  end →
  d !! "summary" = None →
  build_embedding_input R (PyDict d) caption transcript
  = Ok ("Summary:" +:+ nl +:+ "" +:+ nl
        +:+ "Key Points:" +:+ nl +:+ "" +:+ nl
        +:+ "Caption:" +:+ nl +:+ caption +:+ nl
        +:+ "Transcript:" +:+ nl +:+ transcript).
Proof.
  intros Hk Hs. rewrite (build_embedding_input_dict R d []).
  - rewrite Hs. reflexivity.
  - destruct (d !! "key_points") as [[]|]; try contradiction; reflexivity.
Qed.

Lemma embedding_input_missing_parts_witness :
  build_embedding_input Sample.services (PyDict {[ "key_points" := PyNone ]})
    "a person waves" "hello"
  = Ok ("Summary:" +:+ nl +:+ "" +:+ nl
        +:+ "Key Points:" +:+ nl +:+ "" +:+ nl
        +:+ "Caption:" +:+ nl +:+ "a person waves" +:+ nl
        +:+ "Transcript:" +:+ nl +:+ "hello").
Proof.
  apply (embedding_input_missing_parts Sample.services {[ "key_points" := PyNone ]}
           "a person waves" "hello").
  - vm_compute. exact I.
  - vm_compute. reflexivity.
Defined.

Lemma all_str_raises (vs : list PyVal) (e : PyExc) :
  all_str vs = Raise e →
  exc_class e = "TypeError" ∧ ∃ v, v ∈ vs ∧ ∀ s, v ≠ PyStr s.
Proof.
  induction vs as [|v vs IH]; [discriminate|].
  destruct v; simpl;
    try (intros [= <-]; split; [reflexivity|];
         eexists; split; [apply list_elem_of_here|discriminate]).
  destruct (all_str vs) as [ss|e'] eqn:Hrest; [discriminate|].
  intros [= ->]. destruct (IH eq_refl) as (Hc & v & Hin & Hv).
  split; [exact Hc|]. exists v. split; [apply list_elem_of_further, Hin|exact Hv].
Qed.

Lemma all_str_keys (kvs : list (string * PyVal)) :
  all_str (map (fun kv => PyStr (fst kv)) kvs) = Ok (map fst kvs).
Proof. induction kvs as [|kv kvs IH]; simpl; [reflexivity|]. rewrite IH. reflexivity. Qed.

(** X10: [build_embedding_input] raises in two cases only: the summary
    is not a dictionary ([AttributeError]), or its key points are a list
    holding something that is not a string ([TypeError]). *)
Theorem embedding_input_errors (R : Remote) (summary : PyVal)
    (caption transcript : string) (e : PyExc) :
  build_embedding_input R summary caption transcript = Raise e →
  (exc_class e = "AttributeError" ∧ ∀ d, summary ≠ PyDict d)
  ∨ (exc_class e = "TypeError"
     ∧ ∃ d l v, summary = PyDict d ∧ d !! "key_points" = Some (PyList l)
                ∧ v ∈ l ∧ ∀ s, v ≠ PyStr s).
Proof.
  unfold build_embedding_input.
  destruct summary as [| | | | | |d];
    try (intros [= <-]; left; split; [reflexivity|discriminate]).
  unfold py_get. intros Hraise. right.
  destruct (d !! "key_points") as [raw|] eqn:Hk; cbn [default from_option id] in Hraise.
  - destruct raw as [| | | | s|l|keys]; try discriminate Hraise.
    + destruct (all_str l) as [ss|e'] eqn:Hl; [discriminate Hraise|].
      injection Hraise as ->. destruct (all_str_raises l e Hl) as (Hc & v & Hin & Hv).
      split; [exact Hc|]. exists d, l, v. auto.
    + rewrite all_str_keys in Hraise. discriminate Hraise.
  - discriminate Hraise.
Qed.

Lemma embedding_input_errors_witness :
  (exc_class (mkExc "TypeError" "join") = "AttributeError"
   ∧ ∀ d, PyDict {[ "key_points" := PyList [PyStr "wave"; PyInt 3] ]} ≠ PyDict d)
  ∨ (exc_class (mkExc "TypeError" "join") = "TypeError"
     ∧ ∃ d l v, PyDict {[ "key_points" := PyList [PyStr "wave"; PyInt 3] ]} = PyDict d
                ∧ d !! "key_points" = Some (PyList l)
                ∧ v ∈ l ∧ ∀ s, v ≠ PyStr s).
Proof.
  apply (embedding_input_errors Sample.services
           (PyDict {[ "key_points" := PyList [PyStr "wave"; PyInt 3] ]})
           "a person waves" "hello").
  vm_compute. reflexivity.
Defined.

(** ** Captioning request *)

Lemma length_frame_offsets (self : VideoSegmenter) (d : Q) :
  (0 < d)%Q → length (_frame_offsets self d) = Z.to_nat (frames_per_segment self).
Proof.
  intros Hd. unfold _frame_offsets.
  assert (Hd0 : Qle_bool d 0 = false).
  { destruct (Qle_bool d 0) eqn:E; [|reflexivity]. apply Qle_bool_iff in E. lra. }
  rewrite Hd0, orb_false_r.
  destruct (Z.leb_spec (frames_per_segment self) 0); [simpl; lia|].
  apply length_linspace_open.
Qed.

(** X11: what the captioner is sent for a segment of a source of
    positive duration.  With [frames_per_segment] at zero or less the
    message is the single text entry saying that no frames were
    extracted; otherwise the text entry asks to analyse the frames and is
    followed by exactly [frames_per_segment] images, the frames of the
    segment in order.  An empty transcript is written [N/A]. *)
Theorem describe_content_follows_frames (S fps : Z) (D : Q) (w w' : World)
    (video_path temp_dir : string) (clip : Clip)
    (segments : list VideoSegment) (seg : VideoSegment) (transcript : string) :
  0 < S -> (0 < D)%Q ->
  w_videos w !! video_path = Some clip ->
  clip_duration clip = Some D ->
  segment (VideoSegmenter_init S fps) video_path w = (w', Ok (segments, temp_dir)) ->
  seg ∈ segments ->
  if fps <=? 0
  then describe_user_content seg transcript
       = [ InputText ("No frames were extracted for this segment."
                      +:+ " Use the transcript (if any) to summarize the visuals."
                      +:+ nl +:+ nl +:+ "Transcript:" +:+ nl
                      +:+ (if String.eqb transcript "" then "N/A" else transcript) +:+ nl
                      +:+ "Describe the scene, important actions and any visible text.") ]
  else describe_user_content seg transcript
       = InputText ("Analyze the provided video frames and transcript."
                    +:+ nl +:+ nl +:+ "Transcript:" +:+ nl
                    +:+ (if String.eqb transcript "" then "N/A" else transcript) +:+ nl
                    +:+ "Describe the scene, important actions and any visible text.")
         :: map InputImage (frames_base64 seg)
       ∧ Z.of_nat (length (frames_base64 seg)) = fps.
Proof.
  intros HS HD Hv Hd Hrun Hin.
  rewrite (segment_run_inv S fps D w w' video_path temp_dir clip _ HS HD Hv Hd Hrun) in Hin.
  apply list_elem_of_lookup in Hin as [i Hi].
  apply lookup_segment_values in Hi as [Hlt ->].
  assert (Hidx : Z.of_nat i < Qceiling (D / inject_Z S)) by lia.
  pose proof (subclip_duration_bounds S D i HS HD Hidx) as [Hpos _].
  assert (Hlen : length (frames_base64 (segment_value (VideoSegmenter_init S fps) clip D
                                                      temp_dir i))
                 = Z.to_nat (Z.max 0 fps)).
  { cbn [frames_base64 segment_value]. rewrite length_map, length_frame_offsets.
    - reflexivity.
    - unfold segment_start, segment_end. rewrite (init_segment_duration S fps HS).
      exact Hpos. }
  unfold describe_user_content, describe_prompt, or_na.
  destruct (frames_base64 (segment_value (VideoSegmenter_init S fps) clip D temp_dir i))
    as [|f frames] eqn:Hframes.
  - destruct (Z.leb_spec fps 0); [rewrite !append_assoc; reflexivity|]. simpl in Hlen. lia.
  - destruct (Z.leb_spec fps 0); [simpl in Hlen; lia|].
    split; [reflexivity|]. rewrite Hlen. lia.
Qed.

Lemma describe_content_follows_frames_witness :
  if 2 <=? 0
  then describe_user_content Sample.segment_2 ""
       = [ InputText ("No frames were extracted for this segment."
                      +:+ " Use the transcript (if any) to summarize the visuals."
                      +:+ nl +:+ nl +:+ "Transcript:" +:+ nl
                      +:+ (if String.eqb "" "" then "N/A" else "") +:+ nl
                      +:+ "Describe the scene, important actions and any visible text.") ]
  else describe_user_content Sample.segment_2 ""
       = InputText ("Analyze the provided video frames and transcript."
                    +:+ nl +:+ nl +:+ "Transcript:" +:+ nl
                    +:+ (if String.eqb "" "" then "N/A" else "") +:+ nl
                    +:+ "Describe the scene, important actions and any visible text.")
         :: map InputImage (frames_base64 Sample.segment_2)
       ∧ Z.of_nat (length (frames_base64 Sample.segment_2)) = 2.
Proof.
  apply (describe_content_follows_frames 30 2 65 Sample.world
           (fst (segment (VideoSegmenter_init 30 2) "talk.mp4" Sample.world))
           "talk.mp4" "/tmp/videorag_segments_0" Sample.clip_65
           (map (segment_value (VideoSegmenter_init 30 2) Sample.clip_65 65
                               "/tmp/videorag_segments_0") (seq 0 3))
           Sample.segment_2 "").
  - reflexivity.
  - reflexivity.
  - vm_compute. reflexivity.
  - reflexivity.
  - vm_compute. reflexivity.
  - vm_compute. right. right. left.
Defined.

(** ** Ingestion: what a run touches *)

(** The three stages of [ingest_video], with the cleanup applied to the
    state the [try] block ends in. *)
Lemma ingest_video_stages (self : CloudVideoRAGService) (session_id video_path : string)
    (w : World) :
  match segment (segmenter self) video_path w with
  | (w0, Raise e) => ingest_video self session_id video_path w = (w0, Raise e)
  | (w0, Ok (segments, temp_dir)) =>
      match map_m (enrich_segment (remote self) session_id) segments w0 with
      | (w1, Raise e) =>
          ingest_video self session_id video_path w
          = (set_paths (filter (fun p => under temp_dir p = false)) w1, Raise e)
      | (w1, Ok records) =>
          ingest_video self session_id video_path w
          = (set_paths (filter (fun p => under temp_dir p = false))
                       (fst (upsert_records (remote self) records w1)),
             snd (upsert_records (remote self) records w1))
      end
  end.
Proof.
  destruct (segment (segmenter self) video_path w) as [w0 [[segments temp_dir]|e]] eqn:Hseg.
  - destruct (map_m (enrich_segment (remote self) session_id) segments w0)
      as [w1 [records|e]] eqn:Hmap.
    + unfold ingest_video, try_finally, bind, rmtree. rewrite Hseg, Hmap.
      destruct (upsert_records (remote self) records w1) as [w2 [[]|e]]; reflexivity.
    + unfold ingest_video, try_finally, bind, rmtree. rewrite Hseg, Hmap. reflexivity.
  - unfold ingest_video, bind. rewrite Hseg. reflexivity.
Qed.

Lemma upsert_records_effect (R : Remote) (records : list IndexRecord) (w : World) :
  w_paths (fst (upsert_records R records w)) = w_paths w
  ∧ ∃ written,
      (∀ r, r ∈ written → r ∈ records)
      ∧ w_table (fst (upsert_records R records w)) = foldl upsert_row (w_table w) written.
Proof.
  unfold upsert_records, _upsert_sync, ret.
  destruct records as [|r records]; [split; [reflexivity|exists []; split; [|reflexivity]; auto]|].
  destruct (upsert_fails R (w_tick w) (r :: records)) as [refusal|]; cbn [fst w_paths w_table].
  - split; [reflexivity|]. eexists. split; [|reflexivity].
    intros r' Hr'. apply list_elem_of_In, filter_In in Hr' as [Hr' _].
    apply list_elem_of_In, Hr'.
  - split; [reflexivity|]. exists (r :: records). split; [auto|reflexivity].
Qed.

Lemma foldl_upsert_other (records : list IndexRecord)
    (table : gmap (string * string) IndexRecord) (key : string * string) :
  (∀ r, r ∈ records → (rec_session_id r, rec_segment_id r) ≠ key) →
  foldl upsert_row table records !! key = table !! key.
Proof.
  revert table. induction records as [|r records IH]; intros table Hne; [reflexivity|].
  cbn [foldl]. rewrite IH by (intros r' Hr'; apply Hne, list_elem_of_further, Hr').
  unfold upsert_row. apply lookup_insert_ne. apply Hne, list_elem_of_here.
Qed.

(** The rows a run leaves alone. *)
Lemma ingest_video_rows (self : CloudVideoRAGService)
    (session_id video_path : string) (w : World) (key : string * string) :
  (∀ w0 segments temp_dir,
     segment (segmenter self) video_path w = (w0, Ok (segments, temp_dir)) →
     fst key ≠ session_id ∨ snd key ∉ map seg_id segments) →
  w_table (fst (ingest_video self session_id video_path w)) !! key = w_table w !! key.
Proof.
  intros Hkey.
  pose proof (ingest_video_stages self session_id video_path w) as Hst.
  pose proof (segment_store_kept (segmenter self) video_path w) as [Ht0 _].
  destruct (segment (segmenter self) video_path w) as [w0 [[segments temp_dir]|e]];
    simpl in Ht0; [|rewrite Hst; simpl; congruence].
  specialize (Hkey w0 segments temp_dir eq_refl).
  destruct (map_m_enrich_effect (remote self) session_id segments w0) as [Hw1 Hrecs].
  destruct (map_m (enrich_segment (remote self) session_id) segments w0)
    as [w1 [records|e]]; simpl in Hw1, Hrecs; destruct Hw1 as (_ & Ht1 & _);
    rewrite Hst; cbn [fst set_paths w_table]; [|congruence].
  specialize (Hrecs records eq_refl).
  destruct (upsert_records_effect (remote self) records w1) as (_ & written & Hsub & Hnew).
  rewrite Hnew, foldl_upsert_other; [congruence|].
  intros r Hr Heq. apply Hsub, list_elem_of_lookup in Hr as [i Hi].
  destruct (Forall2_lookup_r _ _ _ _ _ Hrecs Hi) as (seg & Hseg_i & Hs & Hid & _).
  destruct Hkey as [Hk|Hk].
  - apply Hk. rewrite <- Heq. exact Hs.
  - apply Hk. rewrite <- Heq. cbn [snd]. rewrite Hid.
    apply list_elem_of_fmap. exists seg. split; [reflexivity|].
    apply list_elem_of_lookup. exists i. exact Hseg_i.
Qed.

(** X12: a run of [ingest_video] whose segmentation returned changes no
    row of the table but those stored under its own session and the
    identities of its own segments, whether it returns or raises; the
    rows of every other session are as they were. *)
Theorem ingest_video_touches_only_its_keys (self : CloudVideoRAGService)
    (session_id video_path temp_dir : string) (w w0 : World)
    (segments : list VideoSegment) (key : string * string) :
  segment (segmenter self) video_path w = (w0, Ok (segments, temp_dir)) →
  fst key ≠ session_id ∨ snd key ∉ map seg_id segments →
  w_table (fst (ingest_video self session_id video_path w)) !! key = w_table w !! key.
Proof.
  intros Hseg Hkey. apply ingest_video_rows.
  intros w0' segments' temp_dir' Hseg'. rewrite Hseg in Hseg'.
  injection Hseg' as _ <- _. exact Hkey.
Qed.

Lemma ingest_video_touches_only_its_keys_witness :
  w_table (fst (ingest_video (CloudVideoRAGService_init 30 2 Sample.services)
                             "session-1" "talk.mp4" Sample.world))
    !! ("session-2", "seg-0000-0-30000")
  = w_table Sample.world !! ("session-2", "seg-0000-0-30000").
Proof.
  apply (ingest_video_touches_only_its_keys
           (CloudVideoRAGService_init 30 2 Sample.services)
           "session-1" "talk.mp4" "/tmp/videorag_segments_0" Sample.world
           (fst (segment (VideoSegmenter_init 30 2) "talk.mp4" Sample.world))
           (map (segment_value (VideoSegmenter_init 30 2) Sample.clip_65 65
                               "/tmp/videorag_segments_0") (seq 0 3))
           ("session-2", "seg-0000-0-30000")).
  - vm_compute. reflexivity.
  - left. vm_compute. discriminate.
Defined.

Lemma audio_files_under (self : VideoSegmenter) (video_path temp_dir : string)
    (w w' : World) (segments : list VideoSegment) (p : string) :
  segment self video_path w = (w', Ok (segments, temp_dir)) →
  p ∈ audio_files segments → under temp_dir p = true.
Proof.
  intros Hrun Hp.
  destruct (w_videos w !! video_path) as [clip|] eqn:Hv.
  - destruct (segment_returns self video_path clip w Hv) as (w1 & tmp & Hrun').
    rewrite Hrun in Hrun'. injection Hrun' as _ -> ->.
    unfold audio_files in Hp. apply elem_of_list_to_set, list_elem_of_omap in Hp
      as (seg & Hin & Haudio).
    apply list_elem_of_fmap in Hin as (i & -> & _).
    cbn [audio_path segment_value] in Haudio.
    destruct (clip_has_audio clip); [|discriminate].
    injection Haudio as <-. apply under_path_join.
  - revert Hrun. unfold segment, bind, mkdtemp, VideoFileClip. simpl. rewrite Hv.
    discriminate.
Qed.

(** X13: whatever the outcome of a run of [ingest_video] whose
    segmentation returned, the disk is afterwards what it was before the
    run, less the paths at or below the temporary directory: nothing else
    is removed and nothing is left behind. *)
Theorem ingest_video_restores_disk (self : CloudVideoRAGService)
    (session_id video_path temp_dir : string) (w w0 : World)
    (segments : list VideoSegment) (p : string) :
  segment (segmenter self) video_path w = (w0, Ok (segments, temp_dir)) →
  p ∈ w_paths (fst (ingest_video self session_id video_path w))
  ↔ p ∈ w_paths w ∧ under temp_dir p = false.
Proof.
  intros Hseg.
  pose proof (ingest_video_stages self session_id video_path w) as Hst.
  destruct (segment_disk _ _ _ _ _ _ Hseg) as (_ & Hdisk & _).
  pose proof (audio_files_under _ _ _ _ _ _ p Hseg) as Haudio.
  rewrite Hseg in Hst.
  destruct (map_m_enrich_effect (remote self) session_id segments w0) as [Hw1 _].
  assert (Hpaths : w_paths (fst (ingest_video self session_id video_path w))
                   = filter (fun q => under temp_dir q = false) (w_paths w0)).
  { destruct (map_m (enrich_segment (remote self) session_id) segments w0)
      as [w1 [records|e]]; simpl in Hw1; destruct Hw1 as (Hp1 & _); rewrite Hst;
      cbn [fst set_paths w_paths]; [|congruence].
    destruct (upsert_records_effect (remote self) records w1) as (Hp2 & _). congruence. }
  rewrite Hpaths, elem_of_filter, Hdisk, !elem_of_union, elem_of_singleton.
  split.
  - intros (Hu & [[->|Hin]|Hin]); [rewrite under_self in Hu; discriminate| |auto].
    rewrite (Haudio Hin) in Hu. discriminate.
  - intros (Hin & Hu). auto.
Qed.

Lemma ingest_video_restores_disk_witness :
  "/tmp/notes.txt"
    ∈ w_paths (fst (ingest_video (CloudVideoRAGService_init 30 2 Sample.services)
                                 "session-1" "talk.mp4"
                                 (set_paths (fun _ => {[ "/tmp/notes.txt" ]}) Sample.world)))
  ↔ "/tmp/notes.txt" ∈ w_paths (set_paths (fun _ => {[ "/tmp/notes.txt" ]}) Sample.world)
    ∧ under "/tmp/videorag_segments_0" "/tmp/notes.txt" = false.
Proof.
  apply (ingest_video_restores_disk (CloudVideoRAGService_init 30 2 Sample.services)
           "session-1" "talk.mp4" "/tmp/videorag_segments_0"
           (set_paths (fun _ => {[ "/tmp/notes.txt" ]}) Sample.world)
           (fst (segment (VideoSegmenter_init 30 2) "talk.mp4"
                   (set_paths (fun _ => {[ "/tmp/notes.txt" ]}) Sample.world)))
           (map (segment_value (VideoSegmenter_init 30 2) Sample.clip_65 65
                               "/tmp/videorag_segments_0") (seq 0 3))).
  vm_compute. reflexivity.
Defined.

(** X14: a source that opens with no duration, or a duration of zero or
    less, is ingested without any remote call: the run returns, no request
    is sent to the store and the table is unchanged. *)
Theorem ingest_video_empty_source (S fps : Z) (R : Remote)
    (session_id video_path : string) (clip : Clip) (w : World) :
  w_videos w !! video_path = Some clip →
  (clip_duration clip = None ∨ ∃ q, clip_duration clip = Some q ∧ (q <= 0)%Q) →
  ∃ w', ingest_video (CloudVideoRAGService_init S fps R) session_id video_path w = (w', Ok tt)
        ∧ w_table w' = w_table w ∧ w_upserts w' = w_upserts w ∧ w_tick w' = w_tick w.
Proof.
  intros Hv Hd.
  pose proof (ingest_video_stages (CloudVideoRAGService_init S fps R)
                session_id video_path w) as Hst.
  cbn [segmenter remote CloudVideoRAGService_init] in Hst.
  destruct (segment_returns (VideoSegmenter_init S fps) video_path clip w Hv)
    as (w0 & temp_dir & Hrun).
  rewrite total_segments_nonpositive in Hrun
    by (apply init_segment_duration_pos || apply duration_or_zero_nonpositive, Hd).
  destruct (segment_disk _ _ _ _ _ _ Hrun) as (_ & _ & _ & Ht & Hu & Hk).
  rewrite Hrun in Hst. simpl in Hst. eexists. split; [exact Hst|].
  simpl. auto.
Qed.

Lemma ingest_video_empty_source_witness :
  ∃ w', ingest_video (CloudVideoRAGService_init 30 6 Sample.services)
                     "session-1" "empty.mp4" Sample.world = (w', Ok tt)
        ∧ w_table w' = w_table Sample.world ∧ w_upserts w' = w_upserts Sample.world
        ∧ w_tick w' = w_tick Sample.world.
Proof.
  apply (ingest_video_empty_source 30 6 Sample.services "session-1" "empty.mp4"
           Sample.clip_empty Sample.world).
  - vm_compute. reflexivity.
  - right. exists 0%Q. split; [reflexivity|]. vm_compute. discriminate.
Defined.

(** ** Ingestion: summaries that cannot be stored *)

Lemma enrich_segment_needs_both_keys (R : Remote) (session_id : string)
    (seg : VideoSegment) (w : World) :
  (∀ t transcript caption v,
     summarizer_summarize R t transcript caption = Ok v → has_both_keys v = false) →
  ∃ e, snd (enrich_segment R session_id seg w) = Raise e.
Proof.
  intros Hsum. unfold enrich_segment, bind, remote_call, lift, ret.
  destruct (transcribe_path R (audio_path seg) w) as [w1 [transcript|e]]; [|eauto].
  destruct (captioner_describe R (w_tick w1) seg transcript) as [caption|e]; [|eauto].
  destruct (summarizer_summarize R (w_tick (tick w1)) transcript caption)
    as [summary|e] eqn:Hs; [|eauto].
  apply Hsum in Hs.
  destruct (build_embedding_input R summary caption transcript); [|eauto].
  destruct (embeddings_create R (w_tick (tick (tick w1))) a); [|eauto].
  destruct summary as [| | | | | |d]; simpl; eauto.
  simpl in Hs.
  destruct (d !! "summary") as [x|]; simpl; [|eauto].
  destruct (d !! "key_points") as [y|]; simpl; [|eauto].
  rewrite !bool_decide_eq_true_2 in Hs by eauto. discriminate Hs.
Qed.

(** X15: [build_embedding_input] reads the summary with defaults, the
    record of a segment does not: when the summarizer never answers with
    a dictionary holding both [summary] and [key_points], a run over a
    source that has a segment raises, sends no request to the store and
    leaves the table as it was. *)
Theorem ingest_video_needs_complete_summaries (self : CloudVideoRAGService)
    (session_id video_path temp_dir : string) (w w0 : World)
    (seg : VideoSegment) (segments : list VideoSegment) :
  (∀ t transcript caption v,
     summarizer_summarize (remote self) t transcript caption = Ok v →
     has_both_keys v = false) →
  segment (segmenter self) video_path w = (w0, Ok (seg :: segments, temp_dir)) →
  ∃ w' e, ingest_video self session_id video_path w = (w', Raise e)
          ∧ w_table w' = w_table w ∧ w_upserts w' = w_upserts w.
Proof.
  intros Hsum Hseg.
  pose proof (ingest_video_stages self session_id video_path w) as Hst.
  pose proof (segment_store_kept (segmenter self) video_path w) as [Ht0 Hu0].
  rewrite Hseg in Hst, Ht0, Hu0. simpl in Ht0, Hu0.
  destruct (map_m_enrich_effect (remote self) session_id (seg :: segments) w0) as [Hw1 _].
  assert (Hraise : ∃ e, snd (map_m (enrich_segment (remote self) session_id)
                                   (seg :: segments) w0) = Raise e).
  { cbn [map_m]. unfold bind at 1.
    destruct (enrich_segment_needs_both_keys (remote self) session_id seg w0 Hsum) as [e He].
    destruct (enrich_segment (remote self) session_id seg w0) as [w1 [r|e']];
      simpl in He; [discriminate|]. eauto. }
  destruct (map_m (enrich_segment (remote self) session_id) (seg :: segments) w0)
    as [w1 [records|e]]; destruct Hraise as [e' He']; simpl in He'; [discriminate|].
  simpl in Hw1. destruct Hw1 as (_ & Ht1 & Hu1).
  eexists _, _. split; [exact Hst|]. simpl. split; congruence.
Qed.

Lemma ingest_video_needs_complete_summaries_witness :
  ∃ w' e,
    ingest_video (mkService (VideoSegmenter_init 30 2) Sample2.services_without_key_points)
                 "session-1" "talk.mp4" Sample.world = (w', Raise e)
    ∧ w_table w' = w_table Sample.world ∧ w_upserts w' = w_upserts Sample.world.
Proof.
  apply (ingest_video_needs_complete_summaries
           (mkService (VideoSegmenter_init 30 2) Sample2.services_without_key_points)
           "session-1" "talk.mp4" "/tmp/videorag_segments_0" Sample.world
           Sample2.segmented_world
           (segment_value (VideoSegmenter_init 30 2) Sample.clip_65 65
                          "/tmp/videorag_segments_0" 0)
           (map (segment_value (VideoSegmenter_init 30 2) Sample.clip_65 65
                               "/tmp/videorag_segments_0") (seq 1 2))).
  - intros t transcript caption v H. vm_compute in H. injection H as <-. reflexivity.
  - vm_compute. reflexivity.
Defined.

(** ** The table stays keyed *)

Lemma foldl_upsert_keyed (records : list IndexRecord)
    (table : gmap (string * string) IndexRecord) :
  table_keyed table → table_keyed (foldl upsert_row table records).
Proof.
  revert table. induction records as [|r records IH]; intros table Hk; [exact Hk|].
  cbn [foldl]. apply IH. intros key r' Hlook. unfold upsert_row in Hlook.
  destruct (decide ((rec_session_id r, rec_segment_id r) = key)) as [<-|Hne].
  - rewrite lookup_insert_eq in Hlook. injection Hlook as <-. reflexivity.
  - rewrite lookup_insert_ne in Hlook by exact Hne. apply Hk, Hlook.
Qed.

Lemma ingest_video_keyed (self : CloudVideoRAGService)
    (session_id video_path : string) (w : World) :
  table_keyed (w_table w) →
  table_keyed (w_table (fst (ingest_video self session_id video_path w))).
Proof.
  intros Hk.
  pose proof (ingest_video_stages self session_id video_path w) as Hst.
  pose proof (segment_store_kept (segmenter self) video_path w) as [Ht0 _].
  destruct (segment (segmenter self) video_path w) as [w0 [[segments temp_dir]|e]];
    simpl in Ht0; [|rewrite Hst; simpl; rewrite Ht0; exact Hk].
  destruct (map_m_enrich_effect (remote self) session_id segments w0) as [Hw1 _].
  destruct (map_m (enrich_segment (remote self) session_id) segments w0)
    as [w1 [records|e]]; simpl in Hw1; destruct Hw1 as (_ & Ht1 & _); rewrite Hst;
    cbn [fst set_paths w_table]; [|rewrite Ht1, Ht0; exact Hk].
  destruct (upsert_records_effect (remote self) records w1) as (_ & written & _ & Hnew).
  rewrite Hnew, Ht1, Ht0. apply foldl_upsert_keyed, Hk.
Qed.

(** ** Cleanup of a session *)

(** The rows left by a cleanup that returned are rows of other
    sessions. *)
Lemma cleanup_table_after (self : CloudVideoRAGService)
    (delete_fails : nat → string → option PyExc) (session_id : string) (w w1 : World) :
  cleanup self delete_fails session_id w = (w1, Ok tt) →
  ∀ key r, w_table w1 !! key = Some r → rec_session_id r ≠ session_id.
Proof.
  unfold cleanup, delete_session, _delete_sync.
  destruct (delete_fails (w_tick w) session_id); [discriminate|]. intros [= <-].
  cbn [w_table]. intros key r Hlook. apply map_lookup_filter_Some in Hlook as [_ Hne].
  exact Hne.
Qed.

(** X18: cleaning a session up a second time changes no row: the table
    after two cleanups is the table after one. *)
Theorem cleanup_twice (self : CloudVideoRAGService)
    (delete_fails : nat → string → option PyExc) (session_id : string) (w w1 w2 : World) :
  cleanup self delete_fails session_id w = (w1, Ok tt) →
  cleanup self delete_fails session_id w1 = (w2, Ok tt) →
  w_table w2 = w_table w1.
Proof.
  unfold cleanup, delete_session, _delete_sync.
  destruct (delete_fails (w_tick w) session_id); [discriminate|]. intros [= <-].
  cbn [w_tick w_table].
  destruct (delete_fails _ session_id); [discriminate|]. intros [= <-].
  cbn [w_table]. apply map_eq. intros key.
  apply option_eq. intros r. rewrite !map_lookup_filter_Some. tauto.
Qed.

Lemma cleanup_twice_witness :
  w_table (fst (cleanup (CloudVideoRAGService_init 30 2 Sample.services) delete_succeeds
                        "session-1"
                        (fst (cleanup (CloudVideoRAGService_init 30 2 Sample.services)
                                      delete_succeeds "session-1" Sample.indexed_world))))
  = w_table (fst (cleanup (CloudVideoRAGService_init 30 2 Sample.services)
                          delete_succeeds "session-1" Sample.indexed_world)).
Proof.
  apply (cleanup_twice (CloudVideoRAGService_init 30 2 Sample.services) delete_succeeds
           "session-1" Sample.indexed_world).
  - reflexivity.
  - reflexivity.
Defined.

Lemma filter_none {A} (P : A → Prop) `{∀ x, Decision (P x)} (l : list A) :
  (∀ x, x ∈ l → ¬ P x) → filter P l = [].
Proof.
  induction l as [|x l IH]; intros Hnone; [reflexivity|].
  rewrite filter_cons_False by (apply Hnone, list_elem_of_here).
  apply IH. intros y Hy. apply Hnone, list_elem_of_further, Hy.
Qed.

Lemma match_procedure_other_session (R : Remote)
    (table : gmap (string * string) IndexRecord) (p : Payload) :
  (∀ key r, table !! key = Some r → rec_session_id r ≠ filter_session_id p) →
  match_procedure R table p = [].
Proof.
  intros Hnone. unfold match_procedure.
  assert (Hempty : filter (fun r => rec_session_id r = filter_session_id p)
                          (map snd (map_to_list table)) = []).
  { apply filter_none. intros r Hr.
    apply list_elem_of_fmap in Hr as ([key r'] & -> & Hin).
    apply elem_of_map_to_list in Hin. exact (Hnone key r' Hin). }
  rewrite Hempty. cbn [map].
  destruct (similarity_threshold p); rewrite ?filter_nil;
    (change (merge_sort (fun a b => score_geb a b) []) with (@nil (Q * IndexRecord));
     rewrite take_nil; reflexivity).
Qed.

(** X19: after a cleanup that returned, a similarity search in the same
    session finds nothing (the store's match procedure being the one
    modelled from the specification), whatever was stored before. *)
Theorem search_after_cleanup_is_empty (self : CloudVideoRAGService)
    (delete_fails : nat → string → option PyExc) (session_id : string)
    (embedding : list Q) (k : Z) (threshold : option Q) (w w1 : World) :
  cleanup self delete_fails session_id w = (w1, Ok tt) →
  rpc_fails (remote self) (w_tick w1) = None →
  similarity_search (remote self) session_id embedding k threshold w1 = (tick w1, Ok []).
Proof.
  intros Hclean Hrpc.
  pose proof (cleanup_table_after self delete_fails session_id w w1 Hclean) as Hrows.
  unfold similarity_search, bind, _rpc_sync, ret. rewrite Hrpc.
  rewrite match_procedure_other_session; [reflexivity|].
  intros key r Hlook. destruct threshold; simpl; exact (Hrows key r Hlook).
Qed.

Lemma search_after_cleanup_is_empty_witness :
  similarity_search (remote (CloudVideoRAGService_init 30 2 Sample.services))
    "session-1" [1%Q; 0%Q] 2 None
    (fst (cleanup (CloudVideoRAGService_init 30 2 Sample.services) delete_succeeds
                  "session-1" Sample.indexed_world))
  = (tick (fst (cleanup (CloudVideoRAGService_init 30 2 Sample.services) delete_succeeds
                        "session-1" Sample.indexed_world)), Ok []).
Proof.
  apply (search_after_cleanup_is_empty (CloudVideoRAGService_init 30 2 Sample.services)
           delete_succeeds "session-1" [1%Q; 0%Q] 2 None Sample.indexed_world).
  - reflexivity.
  - reflexivity.
Defined.

(** X20: cleanup undoes ingestion.  On a table whose rows are stored
    under their own keys, ingesting a video into a session, whatever the
    outcome, and then cleaning the session up leaves exactly the rows the
    other sessions had before the ingestion. *)
Theorem cleanup_undoes_ingestion (self : CloudVideoRAGService)
    (delete_fails : nat → string → option PyExc) (session_id video_path : string)
    (w w2 : World) (key : string * string) (r : IndexRecord) :
  table_keyed (w_table w) →
  cleanup self delete_fails session_id (fst (ingest_video self session_id video_path w))
  = (w2, Ok tt) →
  w_table w2 !! key = Some r ↔ w_table w !! key = Some r ∧ rec_session_id r ≠ session_id.
Proof.
  intros Hkeyed Hclean.
  pose proof (ingest_video_keyed self session_id video_path w Hkeyed) as Hkeyed1.
  assert (Hother : rec_session_id r ≠ session_id →
                   key = (rec_session_id r, rec_segment_id r) →
                   w_table (fst (ingest_video self session_id video_path w)) !! key
                   = w_table w !! key).
  { intros Hne ->. apply ingest_video_rows. intros; left; exact Hne. }
  revert Hclean. unfold cleanup, delete_session, _delete_sync.
  destruct (delete_fails _ session_id); [discriminate|]. intros [= <-].
  cbn [w_table]. rewrite map_lookup_filter_Some. cbn [snd]. split.
  - intros [Hlook Hne]. split; [|exact Hne].
    rewrite <- Hother; [exact Hlook|exact Hne|]. apply Hkeyed1, Hlook.
  - intros [Hlook Hne]. split; [|exact Hne].
    rewrite Hother; [exact Hlook|exact Hne|]. apply Hkeyed, Hlook.
Qed.

Lemma cleanup_undoes_ingestion_witness :
  w_table (fst (cleanup (CloudVideoRAGService_init 30 2 Sample.services) delete_succeeds
                        "session-9"
                        (fst (ingest_video (CloudVideoRAGService_init 30 2 Sample.services)
                                           "session-9" "talk.mp4" Sample2.stocked_world))))
    !! ("session-1", "seg-a")
  = Some (Sample.record "seg-a" [1%Q; 0%Q])
  ↔ w_table Sample2.stocked_world !! ("session-1", "seg-a")
    = Some (Sample.record "seg-a" [1%Q; 0%Q])
    ∧ rec_session_id (Sample.record "seg-a" [1%Q; 0%Q]) ≠ "session-9".
Proof.
  apply (cleanup_undoes_ingestion (CloudVideoRAGService_init 30 2 Sample.services)
           delete_succeeds "session-9" "talk.mp4" Sample2.stocked_world).
  - apply foldl_upsert_keyed. intros key r H. vm_compute in H. discriminate H.
  - vm_compute. reflexivity.
Defined.

(** ** The query path *)

Lemma evidence_of_matches_pointwise (matches : list (gmap string PyVal))
    (evidence : list Evidence) :
  evidence_of_matches matches = Ok evidence →
  Forall2 (fun m ev => evidence_of_match m = Ok ev) matches evidence.
Proof.
  revert evidence. induction matches as [|m matches IH]; intros evidence.
  - intros [= <-]. constructor.
  - cbn [evidence_of_matches].
    destruct (evidence_of_match m) as [ev|e] eqn:Hm; [|discriminate].
    destruct (evidence_of_matches matches) as [evs|e]; [|discriminate].
    intros [= <-]. constructor; [exact Hm|apply IH; reflexivity].
Qed.

(** X21: [query] is one line of three remote calls that only reads.
    If embedding the question fails, nothing else is called; if the
    search fails, the answer service is not called; if a match cannot be
    turned into evidence, the answer service is not called either.
    Otherwise the answer service gets one evidence per match, in the
    order of the matches and at most [top_k] of them, and its answer or
    error is the result.  The state differs from the initial one by the
    count of remote calls only. *)
Theorem query_pipeline (self : CloudVideoRAGService) (session_id question : string)
    (top_k : Z) (threshold : option Q) (w : World) :
  match embeddings_create (remote self) (w_tick w) question with
  | Raise e => query self session_id question top_k threshold w = (tick w, Raise e)
  | Ok embedding =>
      match rpc_fails (remote self) (S (w_tick w)) with
      | Some e =>
          query self session_id question top_k threshold w = (tick (tick w), Raise e)
      | None =>
          ∃ matches,
            similarity_search (remote self) session_id embedding top_k threshold (tick w)
            = (tick (tick w), Ok matches)
            ∧ (length matches <= Z.to_nat top_k)%nat
            ∧ match evidence_of_matches matches with
              | Raise e =>
                  query self session_id question top_k threshold w
                  = (tick (tick w), Raise e)
              | Ok evidence =>
                  Forall2 (fun m ev => evidence_of_match m = Ok ev) matches evidence
                  ∧ query self session_id question top_k threshold w
                    = (tick (tick (tick w)),
                       answer_create (remote self) (S (S (w_tick w))) question evidence)
              end
      end
  end.
Proof.
  unfold query, bind, remote_call, lift.
  destruct (embeddings_create (remote self) (w_tick w) question) as [embedding|e];
    [|reflexivity].
  unfold similarity_search, bind, _rpc_sync, ret. cbn [w_tick tick w_table].
  set (payload := match threshold with
                  | Some t => mkPayload embedding top_k session_id (Some t)
                  | None => mkPayload embedding top_k session_id None
                  end).
  destruct (rpc_fails (remote self) (S (w_tick w))) as [e|]; [reflexivity|].
  pose proof (length_match_procedure (remote self) (w_table w) payload) as Hlen.
  assert (Hcount : match_count payload = top_k)
    by (subst payload; destruct threshold; reflexivity).
  rewrite Hcount in Hlen.
  destruct (match_procedure (remote self) (w_table w) payload) as [|row rows].
  - exists []. split; [reflexivity|]. split; [simpl; lia|].
    cbn [evidence_of_matches]. split; [constructor|reflexivity].
  - exists (row :: rows). split; [reflexivity|]. split; [exact Hlen|].
    destruct (evidence_of_matches (row :: rows)) as [evidence|e] eqn:Hev; [|reflexivity].
    split; [apply evidence_of_matches_pointwise, Hev|reflexivity].
Qed.

(** X22: the evidence of a match can be built exactly when its
    [metadata], if it has any, is a dictionary; any other value under
    [metadata] raises [AttributeError]. *)
Theorem evidence_of_match_raises (m : gmap string PyVal) :
  match m !! "metadata" with
  | None | Some (PyDict _) => ∃ ev, evidence_of_match m = Ok ev
  | Some _ => ∃ e, evidence_of_match m = Raise e ∧ exc_class e = "AttributeError"
  end.
Proof.
  unfold evidence_of_match.
  destruct (m !! "metadata") as [[| | | | | |payload]|];
    cbn [default from_option id py_get]; try (eexists; split; reflexivity);
    destruct (truthy (default PyNone (m !! "similarity"))); eexists; reflexivity.
Qed.

(** X23: a top-level similarity that is neither absent nor zero (nor
    otherwise false) is reported as it is, whatever the [metadata]
    dictionary holds under [similarity]. *)
Theorem evidence_keeps_top_similarity (m payload : gmap string PyVal) (top : PyVal) :
  m !! "similarity" = Some top →
  truthy top = true →
  m !! "metadata" = Some (PyDict payload) →
  evidence_of_match m = Ok (projected payload top).
Proof.
  intros Htop Htruthy Hmd. unfold evidence_of_match.
  rewrite Hmd, Htop. cbn [default from_option id py_get]. rewrite Htruthy. reflexivity.
Qed.

Lemma evidence_keeps_top_similarity_witness :
  evidence_of_match
    {[ "similarity" := PyFloat (3 # 4);
       "metadata" := PyDict {[ "segment_id" := PyStr "seg-0000-0-30000";
                               "similarity" := PyFloat (1 # 2) ]} ]}
  = Ok (projected {[ "segment_id" := PyStr "seg-0000-0-30000";
                     "similarity" := PyFloat (1 # 2) ]}
                  (PyFloat (3 # 4))).
Proof.
  apply (evidence_keeps_top_similarity
           {[ "similarity" := PyFloat (3 # 4);
              "metadata" := PyDict {[ "segment_id" := PyStr "seg-0000-0-30000";
                                      "similarity" := PyFloat (1 # 2) ]} ]}).
  - vm_compute. reflexivity.
  - reflexivity.
  - vm_compute. reflexivity.
Defined.

(** ** Ingesting twice *)

Lemma enrich_segment_videos (R : Remote) (session_id : string) (seg : VideoSegment)
    (w : World) :
  w_videos (fst (enrich_segment R session_id seg w)) = w_videos w.
Proof.
  unfold enrich_segment, bind, remote_call, lift, ret.
  assert (Ht : w_videos (fst (transcribe_path R (audio_path seg) w)) = w_videos w).
  { unfold transcribe_path, bind, path_exists, remote_call, ret.
    destruct (audio_path seg) as [p|]; [|reflexivity].
    destruct (bool_decide (p ∈ w_paths w)); simpl; [|reflexivity].
    destruct (transcriptions_create R (w_tick w) p); reflexivity. }
  destruct (transcribe_path R (audio_path seg) w) as [w1 [transcript|e]]; simpl in Ht;
    [|exact Ht].
  repeat case_match; simplify_eq; simpl; exact Ht.
Qed.

Lemma map_m_enrich_videos (R : Remote) (session_id : string)
    (segments : list VideoSegment) (w : World) :
  w_videos (fst (map_m (enrich_segment R session_id) segments w)) = w_videos w.
Proof.
  revert w. induction segments as [|seg rest IH]; intros w; [reflexivity|].
  cbn [map_m]. unfold bind.
  pose proof (enrich_segment_videos R session_id seg w) as H1.
  destruct (enrich_segment R session_id seg w) as [w1 [r|e]]; simpl in H1; [|exact H1].
  pose proof (IH w1) as H2.
  destruct (map_m (enrich_segment R session_id) rest w1) as [w2 [rs|e]]; simpl in H2 |- *;
    congruence.
Qed.

(** A run that returned, taken apart. *)
Lemma ingest_video_returned (self : CloudVideoRAGService) (session_id video_path : string)
    (w w1 : World) :
  ingest_video self session_id video_path w = (w1, Ok tt) →
  ∃ w0 segments temp_dir records,
    segment (segmenter self) video_path w = (w0, Ok (segments, temp_dir))
    ∧ Forall2 (record_of_segment session_id) segments records
    ∧ w_table w1 = foldl upsert_row (w_table w) records
    ∧ w_videos w1 = w_videos w.
Proof.
  intros Hrun.
  pose proof (ingest_video_stages self session_id video_path w) as Hst.
  pose proof (segment_store_kept (segmenter self) video_path w) as [Ht0 _].
  destruct (segment (segmenter self) video_path w) as [w0 [[segments temp_dir]|e]] eqn:Hseg;
    simpl in Ht0; [|rewrite Hst in Hrun; discriminate Hrun].
  assert (Hv0 : w_videos w0 = w_videos w).
  { revert Hseg. unfold segment. unfold bind at 1. unfold mkdtemp. unfold bind at 1.
    unfold VideoFileClip. cbn [w_videos].
    destruct (w_videos w !! video_path) as [clip|]; [|discriminate].
    unfold bind at 1.
    match goal with |- context [map_m ?f ?l ?wx] =>
      pose proof (map_m_segment_one_disk (segmenter self) clip
                    (duration_or_zero (clip_duration clip))
                    ("/tmp/" +:+ "videorag_segments_" +:+ pretty (w_next_tmp w)) l wx)
        as (_ & _ & Hv & _);
      destruct (map_m f l wx) as [wy [segs|e]] end; [|discriminate].
    unfold ret. intros [= <- _ _]. exact Hv. }
  destruct (map_m_enrich_effect (remote self) session_id segments w0) as [Hw1 Hrecs].
  pose proof (map_m_enrich_videos (remote self) session_id segments w0) as Hv1.
  destruct (map_m (enrich_segment (remote self) session_id) segments w0)
    as [wa [records|e]]; simpl in Hw1, Hrecs, Hv1; destruct Hw1 as (_ & Ht1 & _);
    rewrite Hst in Hrun; [|discriminate Hrun].
  exists w0, segments, temp_dir, records. split; [reflexivity|].
  split; [apply Hrecs; reflexivity|].
  injection Hrun as <- Hok. cbn [set_paths w_table w_videos].
  revert Hok. unfold upsert_records, _upsert_sync, ret.
  destruct records as [|r records]; [intros _; simpl; split; congruence|].
  destruct (upsert_fails (remote self) (w_tick wa) (r :: records)); [discriminate|].
  intros _. cbn [fst w_table w_videos]. split; congruence.
Qed.

Lemma dom_foldl_upsert (records : list IndexRecord)
    (table : gmap (string * string) IndexRecord) :
  dom (foldl upsert_row table records)
  = dom table ∪ list_to_set (map (fun r => (rec_session_id r, rec_segment_id r)) records).
Proof.
  revert table. induction records as [|r records IH]; intros table.
  - simpl. set_solver.
  - cbn [foldl map list_to_set]. rewrite IH. unfold upsert_row. rewrite dom_insert_L.
    set_solver.
Qed.

Lemma record_keys (session_id : string) (segments : list VideoSegment)
    (records : list IndexRecord) :
  Forall2 (record_of_segment session_id) segments records →
  map (fun r => (rec_session_id r, rec_segment_id r)) records
  = map (fun seg => (session_id, seg_id seg)) segments.
Proof.
  induction 1 as [|seg r segments records (Hs & Hid & _) _ IH]; [reflexivity|].
  cbn [map]. rewrite Hs, Hid, IH. reflexivity.
Qed.

Lemma segment_ids_of_source (self : VideoSegmenter) (video_path : string)
    (w1 w2 w1' w2' : World) (segments1 segments2 : list VideoSegment) (dir1 dir2 : string) :
  w_videos w2 = w_videos w1 →
  segment self video_path w1 = (w1', Ok (segments1, dir1)) →
  segment self video_path w2 = (w2', Ok (segments2, dir2)) →
  map seg_id segments1 = map seg_id segments2.
Proof.
  intros Hv H1 H2.
  destruct (w_videos w1 !! video_path) as [clip|] eqn:Hclip.
  - destruct (segment_returns self video_path clip w1 Hclip) as (wa & da & Ha).
    rewrite <- Hv in Hclip.
    destruct (segment_returns self video_path clip w2 Hclip) as (wb & db & Hb).
    rewrite H1 in Ha. rewrite H2 in Hb.
    injection Ha as _ -> _. injection Hb as _ -> _.
    rewrite !map_map. reflexivity.
  - revert H1. unfold segment, bind, mkdtemp, VideoFileClip. simpl. rewrite Hclip.
    discriminate.
Qed.

(** X24: ingesting the same video into the same session a second time
    adds no key to the table: when both runs return, the rows after the
    second run are stored under exactly the keys the first run left. *)
Theorem reingestion_keeps_keys (self : CloudVideoRAGService)
    (session_id video_path : string) (w w1 w2 : World) :
  ingest_video self session_id video_path w = (w1, Ok tt) →
  ingest_video self session_id video_path w1 = (w2, Ok tt) →
  dom (w_table w2) = dom (w_table w1).
Proof.
  intros Hrun1 Hrun2.
  destruct (ingest_video_returned _ _ _ _ _ Hrun1)
    as (wa & segs1 & dir1 & recs1 & Hseg1 & Hrecs1 & Ht1 & Hv1).
  destruct (ingest_video_returned _ _ _ _ _ Hrun2)
    as (wb & segs2 & dir2 & recs2 & Hseg2 & Hrecs2 & Ht2 & _).
  pose proof (segment_ids_of_source _ _ _ _ _ _ _ _ _ _ Hv1 Hseg1 Hseg2) as Hids.
  assert (Hkeys : map (fun r => (rec_session_id r, rec_segment_id r)) recs2
                  = map (fun r => (rec_session_id r, rec_segment_id r)) recs1).
  { rewrite (record_keys _ _ _ Hrecs1), (record_keys _ _ _ Hrecs2).
    rewrite <- !(map_map seg_id (fun i => (session_id, i))). rewrite Hids. reflexivity. }
  rewrite Ht2, dom_foldl_upsert, Hkeys, Ht1, dom_foldl_upsert. set_solver.
Qed.

Lemma reingestion_keeps_keys_witness :
  dom (w_table (fst (ingest_video (CloudVideoRAGService_init 30 2 Sample.services)
                       "session-1" "talk.mp4"
                       (fst (ingest_video (CloudVideoRAGService_init 30 2 Sample.services)
                                          "session-1" "talk.mp4" Sample.world)))))
  = dom (w_table (fst (ingest_video (CloudVideoRAGService_init 30 2 Sample.services)
                                    "session-1" "talk.mp4" Sample.world))).
Proof.
  apply (reingestion_keeps_keys (CloudVideoRAGService_init 30 2 Sample.services)
           "session-1" "talk.mp4" Sample.world).
  - vm_compute. reflexivity.
  - vm_compute. reflexivity.
Defined.
